(** * Fractional bond pricing and portfolio recommendations

    A shallow embedding of the numerical core of the two services

      - [fractionalization-pricing-service/app.py]  (module [Pricing])
      - [recommendations-service/app.py]            (module [Recommend])

    Python floats are embedded as rationals [Q]: a sum, difference,
    product or quotient is the exact one, [round(x, d)] is round-half-to-even
    at [d] decimals and a decimal literal such as [1e-8] is the rational it
    denotes.  The rounding of a result to the nearest float is not part of
    the embedding, so the theorems relate the quantities the program computes
    to each other and leave exact identities of real arithmetic aside.  Two
    effects of the finite range of a float decide which way the program
    goes, and are embedded: a power [b ** t] whose magnitude reaches 2^1024
    raises [OverflowError], and a power or a tested product whose magnitude
    is at most 2^-1075 is [0.0].  The module [RiskFloat] embeds the risk
    scorer a second time, on binary64 floats proper.

    Python exceptions are embedded in the error monad [res]: a division
    whose divisor is zero raises [ZeroDivisionError], [min] of an empty list
    raises [ValueError], subscripting [None] raises [TypeError], reading a
    missing key with [d[k]] raises [KeyError]. *)

From Stdlib Require Import ZArith QArith Qabs Qround Qminmax Qpower Qfield.
From Stdlib Require Import List String Bool Lia Lqa Psatz Permutation.
From Stdlib Require Floats.
Import ListNotations.

Open Scope Q_scope.

(** ** Exceptions *)

Inductive exn : Type :=
| ZeroDivisionError
| ValueError
| TypeError
| KeyError
| IndexError
| UnboundLocalError
| OverflowError.

Inductive res (A : Type) : Type :=
| Ok (a : A)
| Raise (e : exn).

Arguments Ok {A} a.
Arguments Raise {A} e.

Definition bind {A B : Type} (m : res A) (k : A -> res B) : res B :=
  match m with
  | Ok a => k a
  | Raise e => Raise e
  end.

Notation "x <- m ;; k" := (bind m (fun x => k))
  (at level 61, m at next level, right associativity).

Definition is_ok {A : Type} (m : res A) : bool :=
  match m with Ok _ => true | Raise _ => false end.

(** ** Python arithmetic on rationals *)

Definition Qlt_bool (x y : Q) : bool := negb (Qle_bool y x).

(** [x / d] of Python: a zero divisor raises. *)
Definition pydiv (x d : Q) : res Q :=
  if Qeq_bool d 0 then Raise ZeroDivisionError else Ok (x / d).

Infix "//" := pydiv (at level 40, left associativity).

(** The range of a float: a magnitude of [float_huge] = 2^1024 or more is
    not a finite float, a magnitude of [float_tiny] = 2^-1075 or less is
    [0.0]. *)
Definition float_huge : Q := inject_Z (2 ^ 1024).
Definition float_tiny : Q := 1 # (2 ^ 1075).

(** [b ** t] of Python, for a float [b] and an integer [t >= 1]: a result
    out of range raises, a result that underflows is [0.0]. *)
Definition pypow (b : Q) (t : Z) : res Q :=
  let p := b ^ t in
  if Qle_bool float_huge (Qabs p) then Raise OverflowError
  else if Qle_bool (Qabs p) float_tiny then Ok 0
  else Ok p.

(** The tests [x * y > 0] and [x * y <= 0] on the float product: the
    product of two floats is rounded to [0.0] when its magnitude is at most
    2^-1075. *)
Definition positive_product (x y : Q) : bool := Qlt_bool float_tiny (x * y).
Definition nonpositive_product (x y : Q) : bool := Qle_bool (x * y) float_tiny.

(** Truthiness of a float: [0.0] is falsy, everything else is truthy. *)
Definition truthy (x : Q) : bool := negb (Qeq_bool x 0).

(** Truthiness of a value that may be [None]. *)
Definition truthy_opt (o : option Q) : bool :=
  match o with
  | Some x => truthy x
  | None => false
  end.

(** [sum(xs)]: left-to-right accumulation starting from [0]. *)
Definition pysum (xs : list Q) : Q := fold_left Qplus xs 0.

(** The same sum accumulated from the right: in exact arithmetic the two
    agree, and this one follows the structure of the list. *)
Fixpoint qsum {A : Type} (f : A -> Q) (l : list A) : Q :=
  match l with
  | [] => 0
  | a :: r => f a + qsum f r
  end.

(** [sum(g)] for a generator whose elements may raise. *)
Fixpoint pysum_gen (acc : Q) (xs : list (res Q)) : res Q :=
  match xs with
  | [] => Ok acc
  | x :: xs' => v <- x ;; pysum_gen (acc + v) xs'
  end.

(** [range(lo, lo + len)] as a list of integers. *)
Definition pyrange (lo : Z) (len : nat) : list Z :=
  map (fun i => (lo + Z.of_nat i)%Z) (seq 0 len).

(** Round half to even, to an integer. *)
Definition round_half_even (x : Q) : Z :=
  let z := Qfloor x in
  let r := x - inject_Z z in
  match Qcompare r (1 # 2) with
  | Lt => z
  | Gt => (z + 1)%Z
  | Eq => if Z.even z then z else (z + 1)%Z
  end.

Definition pow10 (d : nat) : Q := inject_Z (10 ^ Z.of_nat d).

(** [round(x, d)] *)
Definition pyround (x : Q) (d : nat) : Q :=
  inject_Z (round_half_even (x * pow10 d)) / pow10 d.

(** [x in xs] for strings *)
Definition str_in (x : string) (xs : list string) : bool :=
  existsb (String.eqb x) xs.

(** [x in xs] where [x] may be [None] (a missing key read with [.get]) *)
Definition opt_str_in (x : option string) (xs : list string) : bool :=
  match x with
  | Some s => str_in s xs
  | None => false
  end.

(** [d.get(k, default)] on a constant table *)
Fixpoint dict_get {V : Type} (d : list (string * V)) (k : option string) (default : V) : V :=
  match d with
  | [] => default
  | (k', v) :: d' =>
      match k with
      | Some s => if String.eqb s k' then v else dict_get d' k default
      | None => default
      end
  end.

(** * The pricing service *)

Module Pricing.

Definition HIGH_RATED : list string :=
  ["AAA"; "AA+"; "AA"; "AA-"; "A+"; "A"; "A-"; "BBB+"; "BBB"]%string.

Definition LOW_RATED : list string :=
  ["BBB-"; "BB+"; "BB"; "BB-"; "B+"; "B"; "B-"; "CCC"; "CC"; "C"; "D"]%string.

(** [pv_price]: present value of the annual coupons plus the present value
    of the principal. *)
Definition pv_price (face_value coupon_rate yield_rate years : Q) : res Q :=
  let c := face_value * coupon_rate in
  let y := yield_rate in
  let n := Z.max (Qceiling years) 0 in
  if (n =? 0)%Z then Ok (face_value + c)
  else
    pv_coupons <- pysum_gen 0 (map (fun t => p <- pypow (1 + y) t ;; c // p)
                                   (pyrange 1 (Z.to_nat n))) ;;
    pv_face <- (p <- pypow (1 + y) n ;; face_value // p) ;;
    Ok (pv_coupons + pv_face).

(** The loop of [implied_yield_for_price]: [iters] is what is left of
    [range(max_iter)]. *)
Fixpoint bisect (face_value coupon_rate price years eps : Q)
         (iters : nat) (a b fa fb : Q) : res Q :=
  match iters with
  | O => Ok ((1 # 2) * (a + b))
  | S k =>
      let m := (1 # 2) * (a + b) in
      pm <- pv_price face_value coupon_rate m years ;;
      let fm := pm - price in
      if Qlt_bool (Qabs fm) eps then Ok m
      else if nonpositive_product fa fm
           then bisect face_value coupon_rate price years eps k a m fa fm
           else bisect face_value coupon_rate price years eps k m b fm fb
  end.

(** [implied_yield_for_price]: bisection between [lo] and [hi]; [None] is
    Python's [None]. *)
Definition implied_yield_for_price (face_value coupon_rate price years : Q)
           (lo hi eps : Q) (max_iter : nat) : res (option Q) :=
  let a := lo in
  let b := hi in
  pa <- pv_price face_value coupon_rate a years ;;
  let fa := pa - price in
  pb <- pv_price face_value coupon_rate b years ;;
  let fb := pb - price in
  if positive_product fa fb then
    let b := 10 in
    pb <- pv_price face_value coupon_rate b years ;;
    let fb := pb - price in
    if positive_product fa fb then Ok None
    else
      m <- bisect face_value coupon_rate price years eps max_iter a b fa fb ;;
      Ok (Some m)
  else
    m <- bisect face_value coupon_rate price years eps max_iter a b fa fb ;;
    Ok (Some m).

(** The default keyword arguments of [implied_yield_for_price]. *)
Definition default_lo : Q := 1 # 100000000.
Definition default_hi : Q := 1.
Definition default_eps : Q := 1 # 100000000.
Definition default_max_iter : nat := 200.

(** *** Closed forms used to state the properties of the two functions *)

(** The sum of the first [k] discounted coupons, accumulated in the order
    of [sum]. *)
Fixpoint coupons (c y : Q) (k : nat) : Q :=
  match k with
  | O => 0
  | S k' => coupons c y k' + c / (1 + y) ^ (1 + Z.of_nat k')
  end.

(** The value [pv_price] returns when it returns. *)
Definition pv_value (face_value coupon_rate yield_rate years : Q) : Q :=
  let c := face_value * coupon_rate in
  let n := Z.max (Qceiling years) 0 in
  if (n =? 0)%Z then face_value + c
  else coupons c yield_rate (Z.to_nat n) + face_value / (1 + yield_rate) ^ n.

Definition same_strict_sign (x y : Q) : Prop :=
  (0 < x /\ 0 < y) \/ (x < 0 /\ y < 0).

(** One iteration of the bisection that does not stop early, on the state
    [(a, b, fa, fb)], and [k] of them. *)
Definition bisect_step (f : Q -> Q) (s : Q * Q * Q * Q) : Q * Q * Q * Q :=
  let '(a, b, fa, fb) := s in
  let m := (1 # 2) * (a + b) in
  let fm := f m in
  if nonpositive_product fa fm then (a, m, fa, fm) else (m, b, fm, fb).

Fixpoint bracket_after (f : Q -> Q) (k : nat) (s : Q * Q * Q * Q) : Q * Q * Q * Q :=
  match k with
  | O => s
  | S k' => bracket_after f k' (bisect_step f s)
  end.


(** The function whose root the bisection looks for. *)
Definition price_gap (face_value coupon_rate price years y : Q) : Q :=
  pv_value face_value coupon_rate y years - price.


(** *** Fractional bond pricing *)

(** The local variables of [calculate_fraction_price] after the dispatch on
    the rating and the mode flags. *)
Record Locals : Type := mkLocals {
  l_seller_total : Q;
  l_fraction_price : Q;
  l_buyer_cost : Q;
  l_buyer_yield : option Q;
  l_Y : option Q
}.

Record Projection : Type := mkProjection {
  absolute_interest : Q;
  return_pct_of_cost : Q
}.

(** The dictionary returned by [calculate_fraction_price]. *)
Record PricingResult : Type := mkPricingResult {
  fraction_price : Q;
  seller_total : Q;
  buyer_expected_yield_pct : option Q;
  buyer_interest_projection : list (string * Projection);
  pricing_mode : string;
  used_yield : option Q
}.

Section FractionPrice.

(** The parameter [purchase_amount] is never read by the function ("not used
    currently") and is left out. *)
Variables face_value coupon_rate : Q.
Variable rating : string.
Variable maturity_years : Q.
Variable fractions : Z.
Variables use_pv_forward force_seller_target : bool.

(** The nested function [target_yield_for_time]. *)
Definition target_yield_for_time (t : Q) : Q :=
  let delta := 1 # 100 in
  let t_capped := Qmin (Qmax t 0) 5 in
  coupon_rate - delta * (t_capped / 5).

(** The [if rating in HIGH_RATED ... elif ... else] block. *)
Definition dispatch : res Locals :=
  fv_per_unit <- face_value // inject_Z fractions ;;
  if str_in rating HIGH_RATED then
    if use_pv_forward && negb force_seller_target then
      let Y := target_yield_for_time maturity_years in
      seller_total <- pv_price face_value coupon_rate Y maturity_years ;;
      q <- seller_total // inject_Z fractions ;;
      let fraction_price := pyround q 2 in
      let buyer_cost := fraction_price * inject_Z fractions in
      r <- (coupon_rate * face_value) // buyer_cost ;;
      let buyer_yield := r * 100 in
      Ok (mkLocals seller_total fraction_price buyer_cost (Some buyer_yield) (Some Y))
    else if force_seller_target then
      let base_recovery := face_value * (1 + coupon_rate) in
      let time_scale := (95 # 100) + (7 # 100) * (Qmin (Qmax maturity_years 0) 5 / 5) in
      let seller_total := base_recovery * time_scale in
      q <- seller_total // inject_Z fractions ;;
      let fraction_price := pyround q 2 in
      let buyer_cost := fraction_price * inject_Z fractions in
      implied <- implied_yield_for_price face_value coupon_rate seller_total maturity_years
                   default_lo default_hi default_eps default_max_iter ;;
      let buyer_yield :=
        match implied with
        | Some i => Some (i * 100)
        | None => None
        end in
      let Y := implied in
      Ok (mkLocals seller_total fraction_price buyer_cost buyer_yield Y)
    else
      let seller_total := face_value * (1 + coupon_rate) * (98 # 100) in
      q <- seller_total // inject_Z fractions ;;
      let fraction_price := pyround q 2 in
      let buyer_cost := fraction_price * inject_Z fractions in
      r <- (coupon_rate * face_value) // buyer_cost ;;
      let buyer_yield := r * 100 in
      Ok (mkLocals seller_total fraction_price buyer_cost (Some buyer_yield) None)
  else if str_in rating LOW_RATED then
    let seller_effective_rate := coupon_rate * (75 # 100) in
    let seller_total := face_value * (1 + seller_effective_rate) in
    q <- seller_total // inject_Z fractions ;;
    let fraction_price := pyround q 2 in
    let buyer_cost := fraction_price * inject_Z fractions in
    r <- (coupon_rate * face_value) // buyer_cost ;;
    let buyer_yield := r * 100 in
    Ok (mkLocals seller_total fraction_price buyer_cost (Some buyer_yield) None)
  else
    let fraction_price := fv_per_unit in
    let seller_total := fraction_price * inject_Z fractions in
    let buyer_cost := seller_total in
    let buyer_yield := coupon_rate * 100 in
    Ok (mkLocals seller_total fraction_price buyer_cost (Some buyer_yield) None).

(** The nested function [proj]. *)
Definition proj (buyer_cost years : Q) : res Projection :=
  let held_years := Qmin years (Qmax maturity_years 0) in
  let interest_amt := coupon_rate * face_value * held_years in
  pct <- (if truthy buyer_cost
          then q <- interest_amt // buyer_cost ;; Ok (pyround (q * 100) 2)
          else Ok 0) ;;
  Ok (mkProjection (pyround interest_amt 2) pct).

(** The expression stored under ["pricing_mode"]. *)
Definition mode_label : string :=
  if use_pv_forward && negb force_seller_target then "pv_forward"
  else if force_seller_target then "force_seller" else "fallback".

Definition calculate_fraction_price : res PricingResult :=
  l <- dispatch ;;
  p1 <- proj (l_buyer_cost l) 1 ;;
  p3 <- proj (l_buyer_cost l) 3 ;;
  p5 <- proj (l_buyer_cost l) 5 ;;
  let interest_projections :=
    [("1_year", p1); ("3_year", p3); ("5_year", p5)]%string in
  Ok {| fraction_price := l_fraction_price l;
        seller_total := pyround (l_seller_total l) 2;
        buyer_expected_yield_pct :=
          if truthy_opt (l_buyer_yield l)
          then option_map (fun v => pyround v 2) (l_buyer_yield l)
          else None;
        buyer_interest_projection := interest_projections;
        pricing_mode := mode_label;
        used_yield :=
          if truthy_opt (l_Y l)
          then option_map (fun v => pyround v 6) (l_Y l)
          else None |}.

End FractionPrice.

(** [price_bond], the [POST /price_bond] handler, always prices in the
    forward-PV mode with the default number of fractions. *)
Definition price_bond (face_value coupon_rate : Q) (rating : string)
           (purchase_amount maturity_years : Q) : res PricingResult :=
  calculate_fraction_price face_value coupon_rate rating maturity_years 100 true false.

End Pricing.

(** * The recommendation service *)

Module Recommend.

(** A bond of the universe: the keys [credit], [yield], [duration],
    [bond_id] and [name] are read with [b[k]], [liquidity] with [b.get]. *)
Record Bond : Type := mkBond {
  bond_id : string;
  b_name : string;
  credit : string;
  yield : Q;
  duration : Q;
  liquidity : option Q
}.

Definition BOND_UNIVERSE : list Bond :=
  [ mkBond "B_SAFE_1" "Gilt 3Y" "AAA" (55 # 1000) 3 (Some (95 # 100));
    mkBond "B_SAFE_2" "InvGrade Corp 3Y" "AA" (6 # 100) 3 (Some (9 # 10));
    mkBond "B_MED_1" "Corp BBB 5Y" "BBB" (75 # 1000) 5 (Some (7 # 10));
    mkBond "B_HY_1" "HighYield 4Y" "BB" (10 # 100) 4 (Some (5 # 10));
    mkBond "B_SHORT_SAFE" "T-Bill 1Y" "AAA" (45 # 1000) 1 (Some (98 # 100)) ]%string.

Definition CREDIT_RISK_MAP : list (string * Q) :=
  [ ("AAA", 0); ("AA", 1 # 10); ("A", 25 # 100); ("BBB", 5 # 10);
    ("BB", 8 # 10); ("B", 95 # 100) ]%string.

Definition RISK_MAP : list (string * Q) :=
  [ ("high", 1); ("medium-high", 75 # 100); ("medium", 5 # 10); ("low", 2 # 10) ]%string.

(** A portfolio asset: a JSON object whose keys may all be missing.  A key
    that is present holds a value of its type: a market value that is null
    or a text, on which [float] raises, is outside the embedding. *)
Record Asset : Type := mkAsset {
  asset_id : option string;
  type : option string;
  name : option string;
  risk_label : option string;
  market_value : option Q;
  cagr : option Q;
  fd_rate : option Q
}.

Definition demo_portfolio : list Asset :=
  [ mkAsset (Some "S_HIGH") (Some "stock") (Some "AlphaTech") (Some "high") (Some 40000) None None;
    mkAsset (Some "S_MED") (Some "stock") (Some "BetaIndustries") (Some "medium") (Some 30000) None None;
    mkAsset (Some "S_LOW") (Some "stock") (Some "GammaStable") (Some "low") (Some 15000) None None;
    mkAsset (Some "MF_GOOD") (Some "mutual_fund") (Some "GrowthPlus MF") (Some "medium") (Some 10000) (Some (15 # 100)) None;
    mkAsset (Some "MF_LOW") (Some "mutual_fund") (Some "ValueCore MF") (Some "medium-high") (Some 5000) (Some (3 # 100)) None;
    mkAsset (Some "FD_1") (Some "bank_fd") (Some "BankFD (7% p.a.)") (Some "low") (Some 20000) None (Some (7 # 100)) ]%string.

(** [float(a.get(k, 0.0))] *)
Definition get_float (v : option Q) : Q :=
  match v with
  | Some x => x
  | None => 0
  end.

Definition opt_str_eqb (o : option string) (s : string) : bool :=
  match o with
  | Some x => String.eqb x s
  | None => false
  end.

Definition get_asset_risk_score (asset : Asset) : Q :=
  let base := dict_get RISK_MAP (risk_label asset) (5 # 10) in
  let asset_type := match type asset with Some t => t | None => "other"%string end in
  let base := if String.eqb asset_type "stock" then Qmin 1 (base + (1 # 10)) else base in
  let base := if String.eqb asset_type "bank_fd" then 5 # 100 else base in
  base.

Record Breakdown : Type := mkBreakdown {
  bd_asset_id : option string;
  bd_type : option string;
  bd_market_value : Q;
  alloc_pct : Q;
  risk_score_raw : Q;
  risk_contribution : Q
}.

(** The [for a in assets] loop of [compute_portfolio_risk], with its two
    accumulators. *)
Fixpoint risk_loop (total_value : Q) (assets : list Asset)
         (breakdown : list Breakdown) (weighted_sum : Q) : res (list Breakdown * Q) :=
  match assets with
  | [] => Ok (breakdown, weighted_sum)
  | a :: rest =>
      let mv := get_float (market_value a) in
      alloc <- mv // total_value ;;
      let score := get_asset_risk_score a in
      let contrib := alloc * score in
      risk_loop total_value rest
        (breakdown ++ [mkBreakdown (asset_id a) (type a) mv alloc score contrib])
        (weighted_sum + contrib)
  end.

(** Returns [(overall_score, breakdown, total_value)]. *)
Definition compute_portfolio_risk (assets : list Asset) : res (Q * list Breakdown * Q) :=
  let s := pysum (map (fun a => get_float (market_value a)) assets) in
  let total_value := if truthy s then s else 1 in
  r <- risk_loop total_value assets [] 0 ;;
  Ok (snd r * 100, fst r, total_value).

(** The breakdown entry of one asset when the division does not raise. *)
Definition breakdown_entry (total_value : Q) (a : Asset) : Breakdown :=
  let mv := get_float (market_value a) in
  let alloc := mv / total_value in
  let score := get_asset_risk_score a in
  mkBreakdown (asset_id a) (type a) mv alloc score (alloc * score).

(** *** Bond selection *)

(** [min(xs)] and [max(xs)]: the first smallest (largest) element; an empty
    list raises. *)
Definition pymin (xs : list Q) : res Q :=
  match xs with
  | [] => Raise ValueError
  | x :: r => Ok (fold_left (fun m v => if Qlt_bool v m then v else m) r x)
  end.

Definition pymax (xs : list Q) : res Q :=
  match xs with
  | [] => Raise ValueError
  | x :: r => Ok (fold_left (fun m v => if Qlt_bool m v then v else m) r x)
  end.

(** [l.sort(key=lambda x: x[0], reverse=True)]: the sort is stable, so among
    equal keys the original order is kept; insertion of an element in front
    of a sorted tail puts it before the first key that is not larger. *)
Fixpoint insert_desc {A : Type} (x : Q * A) (l : list (Q * A)) : list (Q * A) :=
  match l with
  | [] => [x]
  | y :: l' => if Qle_bool (fst y) (fst x) then x :: y :: l' else y :: insert_desc x l'
  end.

Fixpoint sort_desc {A : Type} (l : list (Q * A)) : list (Q * A) :=
  match l with
  | [] => []
  | x :: l' => insert_desc x (sort_desc l')
  end.

(** The candidate list [df]: the universe filtered by the credit whitelist
    of [desired_safety], or the whole universe when nothing is left. *)
Definition candidates (bond_universe : list Bond) (desired_safety : string) : list Bond :=
  let df :=
    if String.eqb desired_safety "safe" then
      filter (fun b => str_in (credit b) ["AAA"; "AA"; "A"]%string) bond_universe
    else if String.eqb desired_safety "medium" then
      filter (fun b => str_in (credit b) ["AAA"; "AA"; "A"; "BBB"]%string) bond_universe
    else bond_universe in
  match df with
  | [] => bond_universe
  | _ => df
  end.

(** The weights [(w_yield, w_credit, w_dur, w_liq)]. *)
Definition weights (prefer_yield : bool) : Q * Q * Q * Q :=
  if prefer_yield then (5 # 10, 4 # 10, 5 # 100, 5 # 100)
  else (35 # 100, 45 # 100, 1 # 10, 1 # 10).

(** The body of the scoring loop: the utility of one bond. *)
Definition utility (prefer_yield : bool) (target_duration y_min y_max : Q) (b : Bond) : Q :=
  let norm_yield := (yield b - y_min) / ((y_max - y_min) + (1 # 1000000000)) in
  let duration_penalty := Qabs (duration b - target_duration) / 10 in
  let '(w_yield, w_credit, w_dur, w_liq) := weights prefer_yield in
  let credit_risk := dict_get CREDIT_RISK_MAP (Some (credit b)) (6 # 10) in
  w_yield * norm_yield
  - w_credit * credit_risk
  - w_dur * duration_penalty
  + w_liq * match liquidity b with Some l => l | None => 5 # 10 end.

Definition select_bond_candidate (bond_universe : list Bond) (desired_safety : string)
           (prefer_yield : bool) (target_duration : Q) : res Bond :=
  let df := candidates bond_universe desired_safety in
  let yds := map yield df in
  y_min <- pymin yds ;;
  y_max <- pymax yds ;;
  let candidate_scores :=
    map (fun b => (utility prefer_yield target_duration y_min y_max b, b)) df in
  match sort_desc candidate_scores with
  | [] => Raise IndexError
  | top :: _ => Ok (snd top)
  end.

(** *** Recommendations *)

(** The value stored under ["bond_yield"]: the yield of the bond, or for a
    ladder the text of two yields printed with three decimals. *)
Inductive YieldField : Type :=
| YieldOf (y : Q)
| YieldText (short_y safe_y : Q).

Record Recommendation : Type := mkRecommendation {
  rec_asset_id : string;
  asset_name : option string;
  replace_value : Q;
  reason : string;
  recommended_bond : string;
  bond_name : string;
  bond_yield : YieldField;
  bond_credit : string
}.

(** [a["asset_id"]] *)
Definition asset_id_item (a : Asset) : res string :=
  match asset_id a with
  | Some i => Ok i
  | None => Raise KeyError
  end.

(** The body of the first loop of [build_recommendations]: the entries one
    asset appends to [to_replace]. *)
Definition triggers (bond_universe : list Bond) (a : Asset) : res (list (string * Q * string)) :=
  let t := type a in
  r1 <- (if opt_str_eqb t "stock" && opt_str_in (risk_label a) ["high"; "medium-high"]%string
         then i <- asset_id_item a ;; Ok [(i, get_float (market_value a), "stock_high"%string)]
         else Ok []) ;;
  r2 <- (if opt_str_eqb t "mutual_fund" && Qlt_bool (get_float (cagr a)) (6 # 100)
         then i <- asset_id_item a ;; Ok [(i, get_float (market_value a), "mf_lowcagr"%string)]
         else Ok []) ;;
  r3 <- (if opt_str_eqb t "bank_fd" then
           let fd_rate := get_float (fd_rate a) in
           let safe_bonds := filter (fun b => str_in (credit b) ["AAA"; "AA"]%string) bond_universe in
           let better := filter (fun b => Qle_bool fd_rate (yield b)) safe_bonds in
           match better with
           | _ :: _ =>
               i <- asset_id_item a ;; Ok [(i, get_float (market_value a), "fd_replace"%string)]
           | [] =>
               i <- asset_id_item a ;; Ok [(i, get_float (market_value a), "fd_suggest_ladder"%string)]
           end
         else Ok []) ;;
  Ok (r1 ++ r2 ++ r3).

(** The first loop: the list [to_replace]. *)
Fixpoint to_replace (bond_universe : list Bond) (assets : list Asset)
  : res (list (string * Q * string)) :=
  match assets with
  | [] => Ok []
  | a :: rest =>
      r <- triggers bond_universe a ;;
      rs <- to_replace bond_universe rest ;;
      Ok (r ++ rs)
  end.

(** [next((x for x in assets if x["asset_id"] == asset_id), None)] *)
Fixpoint find_asset (assets : list Asset) (i : string) : res (option Asset) :=
  match assets with
  | [] => Ok None
  | x :: rest =>
      xi <- asset_id_item x ;;
      if String.eqb xi i then Ok (Some x) else find_asset rest i
  end.

(** The body of the second loop: the recommendation built for one entry of
    [to_replace]; [None] stands for [continue]. *)
Definition build_one (assets : list Asset) (bond_universe : list Bond)
           (entry : string * Q * string) : res (option Recommendation) :=
  let '(asset_id, value, reason) := entry in
  found <- find_asset assets asset_id ;;
  match found with
  | None => Ok None
  | Some asset =>
      let single (bond : Bond) :=
        Ok (Some (mkRecommendation asset_id (name asset) value reason
                    (bond_id bond) (b_name bond) (YieldOf (yield bond)) (credit bond))) in
      if String.eqb reason "stock_high" then
        bond <- select_bond_candidate bond_universe "high_yield" true 3 ;; single bond
      else if String.eqb reason "mf_lowcagr" then
        bond <- select_bond_candidate bond_universe "medium" false 3 ;; single bond
      else if String.eqb reason "fd_replace" then
        bond <- select_bond_candidate bond_universe "safe" true 3 ;; single bond
      else if String.eqb reason "fd_suggest_ladder" then
        let short := find (fun b => String.eqb (bond_id b) "B_SHORT_SAFE") bond_universe in
        safe <- select_bond_candidate bond_universe "safe" false 3 ;;
        match short with
        | None => Raise TypeError
        | Some short =>
            Ok (Some (mkRecommendation asset_id (name asset) value reason
                        (bond_id short ++ " (50%) + " ++ bond_id safe ++ " (50%)")
                        (b_name short ++ " + " ++ b_name safe)
                        (YieldText (pyround (yield short) 3) (pyround (yield safe) 3))
                        (credit short ++ " & " ++ credit safe)))
        end
      else Raise UnboundLocalError
  end.

Fixpoint build_loop (assets : list Asset) (bond_universe : list Bond)
         (entries : list (string * Q * string)) (recs : list Recommendation)
  : res (list Recommendation) :=
  match entries with
  | [] => Ok recs
  | e :: rest =>
      r <- build_one assets bond_universe e ;;
      build_loop assets bond_universe rest
        (match r with Some x => recs ++ [x] | None => recs end)
  end.

Definition build_recommendations (assets : list Asset) (bond_universe : list Bond)
  : res (list Recommendation) :=
  entries <- to_replace bond_universe assets ;;
  build_loop assets bond_universe entries [].

(** *** The endpoints *)

(** [safe_get_portfolio_from_request]: [req_json] is [None] for a missing or
    falsy body, [Some None] for a body without the key ["assets"] and
    [Some (Some l)] for a body whose ["assets"] is the list [l]. *)
Definition safe_get_portfolio_from_request (req_json : option (option (list Asset)))
  : list Asset :=
  match req_json with
  | Some (Some (a :: l)) => a :: l
  | _ => demo_portfolio
  end.



(** The first loop of [recommend]: the assets whose id is not in
    [replaced_ids] are kept. *)
Fixpoint keep_unreplaced (replaced_ids : list string) (assets : list Asset)
  : res (list Asset) :=
  match assets with
  | [] => Ok []
  | a :: rest =>
      i <- asset_id_item a ;;
      kept <- keep_unreplaced replaced_ids rest ;;
      Ok (if str_in i replaced_ids then kept else a :: kept)
  end.

(** The asset appended for one recommendation by the second loop. *)
Definition bond_asset (r : Recommendation) : Asset :=
  mkAsset (Some (recommended_bond r)) (Some "bond"%string) (Some (bond_name r))
          None (Some (replace_value r)) None None.

(** The list [post_assets] of [recommend]. *)
Definition post_rebalance (assets : list Asset) (recommendations : list Recommendation)
  : res (list Asset) :=
  let replaced_ids := map rec_asset_id recommendations in
  kept <- keep_unreplaced replaced_ids assets ;;
  Ok (kept ++ map bond_asset recommendations).

Record RecommendResponse : Type := mkRecommendResponse {
  pre_total_value : Q;
  pre_overall_risk_score : Q;
  recommendations : list Recommendation;
  post_total_value : Q;
  post_overall_risk_score : Q;
  post_breakdown : list Breakdown
}.

(** [recommend], the handler of [POST /recommend]. *)
Definition recommend (req_json : option (option (list Asset))) : res RecommendResponse :=
  let assets := safe_get_portfolio_from_request req_json in
  pre <- compute_portfolio_risk assets ;;
  let '(pre_score, _, total_value) := pre in
  recs <- build_recommendations assets BOND_UNIVERSE ;;
  post_assets <- post_rebalance assets recs ;;
  post <- compute_portfolio_risk post_assets ;;
  let '(post_score, post_details, post_total) := post in
  Ok (mkRecommendResponse total_value (pyround pre_score 4) recs
        post_total (pyround post_score 4) post_details).

(** Whether the first loop of [build_recommendations] appends an entry for
    the asset. *)
Definition triggered (bond_universe : list Bond) (a : Asset) : bool :=
  match triggers bond_universe a with
  | Ok (_ :: _) => true
  | _ => false
  end.

(** Whether the first loop of [recommend] drops the asset, given the ids of
    the recommendations. *)
Definition replaced_in (ids : list string) (a : Asset) : bool :=
  match asset_id a with
  | Some i => str_in i ids
  | None => false
  end.

End Recommend.

(** * The risk scorer on binary64 floats

    [get_asset_risk_score] and [compute_portfolio_risk] use nothing but
    float additions, multiplications, divisions and comparisons, which the
    primitive floats compute as Python does (IEEE 754 binary64, round to
    nearest even).  This second embedding keeps the rounding. *)

Module RiskFloat.
Import PrimFloat.
Local Open Scope float_scope.
Local Set Warnings "-inexact-float".

(** The keys of an asset that the risk scorer reads. *)
Record Asset : Type := mkAsset {
  asset_id : option string;
  type : option string;
  risk_label : option string;
  market_value : option float
}.

Definition RISK_MAP : list (string * float) :=
  [ ("high", 1); ("medium-high", 0.75); ("medium", 0.5); ("low", 0.2) ]%string.

(** [float(a.get(k, 0.0))] *)
Definition get_float (v : option float) : float :=
  match v with
  | Some x => x
  | None => 0
  end.

(** [min(x, y)]: the first argument unless the second is smaller. *)
Definition pymin2 (x y : float) : float := if ltb y x then y else x.

Definition get_asset_risk_score (asset : Asset) : float :=
  let base := dict_get RISK_MAP (risk_label asset) 0.5 in
  let asset_type := match type asset with Some t => t | None => "other"%string end in
  let base := if String.eqb asset_type "stock" then pymin2 1 (base + 0.1) else base in
  let base := if String.eqb asset_type "bank_fd" then 0.05 else base in
  base.

(** [x / d]: a zero divisor, of either sign, raises. *)
Definition pydiv (x d : float) : res float :=
  if eqb d 0 then Raise ZeroDivisionError else Ok (x / d).

Definition truthy (x : float) : bool := negb (eqb x 0).

(** [sum(xs)] *)
Definition pysum (xs : list float) : float := fold_left add xs 0.

Record Breakdown : Type := mkBreakdown {
  bd_asset_id : option string;
  bd_type : option string;
  bd_market_value : float;
  alloc_pct : float;
  risk_score_raw : float;
  risk_contribution : float
}.

Fixpoint risk_loop (total_value : float) (assets : list Asset)
         (breakdown : list Breakdown) (weighted_sum : float)
  : res (list Breakdown * float) :=
  match assets with
  | [] => Ok (breakdown, weighted_sum)
  | a :: rest =>
      let mv := get_float (market_value a) in
      alloc <- pydiv mv total_value ;;
      let score := get_asset_risk_score a in
      let contrib := alloc * score in
      risk_loop total_value rest
        (breakdown ++ [mkBreakdown (asset_id a) (type a) mv alloc score contrib])
        (weighted_sum + contrib)
  end.

(** Returns [(overall_score, breakdown, total_value)]. *)
Definition compute_portfolio_risk (assets : list Asset)
  : res (float * list Breakdown * float) :=
  let s := pysum (map (fun a => get_float (market_value a)) assets) in
  let total_value := if truthy s then s else 1 in
  r <- risk_loop total_value assets [] 0 ;;
  Ok (snd r * 100, fst r, total_value).

End RiskFloat.

(** * The error monad and the arithmetic *)

Lemma bind_ok {A B : Type} (m : res A) (k : A -> res B) (b : B) :
  bind m k = Ok b -> exists a, m = Ok a /\ k a = Ok b.
Proof.
  destruct m as [a|e]; simpl; intros H; [exists a; split; [reflexivity|exact H] | discriminate].
Qed.

Ltac bind_inv H :=
  let a := fresh "v" in
  let Ha := fresh "E" in
  apply bind_ok in H; destruct H as [a [Ha H]].

Lemma pydiv_ok (x d : Q) : ~ d == 0 -> x // d = Ok (x / d).
Proof.
  intros H. unfold pydiv. destruct (Qeq_bool d 0) eqn:E; [|reflexivity].
  apply Qeq_bool_iff in E. contradiction.
Qed.

Lemma pydiv_inv (x d q : Q) : x // d = Ok q -> q = x / d /\ ~ d == 0.
Proof.
  unfold pydiv. destruct (Qeq_bool d 0) eqn:E; [discriminate|].
  intros H. injection H as <-. split; [reflexivity|].
  intros Hd. apply Qeq_bool_iff in Hd. congruence.
Qed.

Lemma truthy_false (x : Q) : truthy x = false -> x == 0.
Proof.
  unfold truthy. intros H. apply Qeq_bool_iff.
  destruct (Qeq_bool x 0); [reflexivity | discriminate].
Qed.

Lemma truthy_true (x : Q) : truthy x = true -> ~ x == 0.
Proof.
  unfold truthy. intros H Hx. apply Qeq_bool_iff in Hx.
  rewrite Hx in H. discriminate.
Qed.

Lemma Qle_bool_false_lt (x y : Q) : Qle_bool x y = false -> y < x.
Proof.
  intros H. apply Qnot_le_lt. intros Hle.
  apply Qle_bool_iff in Hle. congruence.
Qed.

Lemma Qlt_bool_iff (x y : Q) : Qlt_bool x y = true <-> x < y.
Proof.
  unfold Qlt_bool. split.
  - intros H. apply Qle_bool_false_lt. destruct (Qle_bool y x); [discriminate|reflexivity].
  - intros H. destruct (Qle_bool y x) eqn:E; [|reflexivity].
    apply Qle_bool_iff in E. lra.
Qed.

(** * Properties of the pricing service *)

Module PricingFacts.
Import Pricing.

(** ** [pv_price] *)

Lemma pyrange_S (lo : Z) (k : nat) :
  pyrange lo (S k) = pyrange lo k ++ [(lo + Z.of_nat k)%Z].
Proof.
  unfold pyrange. rewrite seq_S, map_app. reflexivity.
Qed.

Lemma pysum_gen_app (acc : Q) (xs ys : list (res Q)) (v : Q) :
  pysum_gen acc xs = Ok v -> pysum_gen acc (xs ++ ys) = pysum_gen v ys.
Proof.
  revert acc. induction xs as [|x xs IH]; intros acc H; simpl in *.
  - injection H as <-. reflexivity.
  - destruct x as [a|e]; simpl in *; [apply IH; exact H | discriminate].
Qed.

Lemma pysum_gen_snoc_inv (acc : Q) (xs : list (res Q)) (x : res Q) (v : Q) :
  pysum_gen acc (xs ++ [x]) = Ok v ->
  exists u w, pysum_gen acc xs = Ok u /\ x = Ok w /\ v = u + w.
Proof.
  revert acc. induction xs as [|x0 xs IH]; intros acc H; simpl in *.
  - destruct x as [w|e]; simpl in H; [|discriminate].
    injection H as <-. exists acc, w. repeat split.
  - destruct x0 as [a|e]; simpl in *; [apply IH; exact H | discriminate].
Qed.

(** *** The range of the discount factors *)

Lemma float_tiny_pos : 0 < float_tiny.
Proof. reflexivity. Qed.

Lemma float_tiny_lt_1 : float_tiny < 1.
Proof. reflexivity. Qed.

Lemma float_big_lt_huge : inject_Z (2 ^ 1023) < float_huge.
Proof. reflexivity. Qed.

Lemma pypow_ok (b : Q) (t : Z) :
  float_tiny < Qabs (b ^ t) -> Qabs (b ^ t) < float_huge -> pypow b t = Ok (b ^ t).
Proof.
  intros H1 H2. unfold pypow. cbv zeta.
  destruct (Qle_bool float_huge (Qabs (b ^ t))) eqn:E1.
  - apply Qle_bool_iff in E1. exfalso. apply (Qlt_not_le _ _ H2). exact E1.
  - destruct (Qle_bool (Qabs (b ^ t)) float_tiny) eqn:E2; [|reflexivity].
    apply Qle_bool_iff in E2. exfalso. apply (Qlt_not_le _ _ H1). exact E2.
Qed.

(** A discounted amount [x / b ** t] that is returned is the exact quotient:
    a power that underflows to [0.0] makes the division raise. *)
Lemma discount_inv (x b : Q) (t : Z) (q : Q) :
  (p <- pypow b t ;; x // p) = Ok q -> q = x / b ^ t.
Proof.
  unfold pypow. cbv zeta.
  destruct (Qle_bool float_huge (Qabs (b ^ t))); [discriminate|].
  destruct (Qle_bool (Qabs (b ^ t)) float_tiny); cbn [bind]; intros H.
  - discriminate.
  - apply pydiv_inv in H. apply H.
Qed.

Lemma discount_errors (x b : Q) (t : Z) (e : exn) :
  (p <- pypow b t ;; x // p) = Raise e -> e = ZeroDivisionError \/ e = OverflowError.
Proof.
  unfold pypow. cbv zeta.
  destruct (Qle_bool float_huge (Qabs (b ^ t))); cbn [bind].
  - intros H. injection H as <-. right. reflexivity.
  - destruct (Qle_bool (Qabs (b ^ t)) float_tiny); cbn [bind]; unfold pydiv;
      destruct (Qeq_bool _ 0); intros H; try discriminate;
      injection H as <-; left; reflexivity.
Qed.

Lemma Qpower_exp_le (b : Q) (k j : nat) :
  1 <= b -> (k <= j)%nat -> 1 <= b ^ Z.of_nat k /\ b ^ Z.of_nat k <= b ^ Z.of_nat j.
Proof.
  intros Hb Hkj. induction Hkj as [|j Hkj [IH1 IH2]].
  - split; [|apply Qle_refl].
    induction k as [|k IH]; [discriminate|].
    replace (Z.of_nat (S k)) with (1 + Z.of_nat k)%Z by lia.
    rewrite Qpower_plus by (intros E; lra). rewrite Qpower_1_r. nra.
  - split; [exact IH1|].
    replace (Z.of_nat (S j)) with (1 + Z.of_nat j)%Z by lia.
    rewrite (Qpower_plus b 1 (Z.of_nat j)) by (intros E; lra). rewrite Qpower_1_r.
    assert (1 <= b ^ Z.of_nat j) by lra. nra.
Qed.

(** With a non-negative yield the discount factors grow from 1 on, so the
    last one bounds them all. *)
Lemma discount_ok (x y : Q) (N : nat) (t : Z) :
  0 <= y -> (1 + y) ^ Z.of_nat N < float_huge -> (0 <= t <= Z.of_nat N)%Z ->
  (p <- pypow (1 + y) t ;; x // p) = Ok (x / (1 + y) ^ t).
Proof.
  intros Hy HN Ht.
  destruct (Qpower_exp_le (1 + y) (Z.to_nat t) N ltac:(lra) ltac:(lia)) as [H1 H2].
  rewrite Z2Nat.id in H1, H2 by lia.
  pose proof float_tiny_lt_1 as Ht1.
  rewrite pypow_ok; cbn [bind].
  - apply pydiv_ok. intros E. lra.
  - rewrite Qabs_pos by lra. lra.
  - rewrite Qabs_pos by lra. lra.
Qed.

Lemma coupons_sum_ok (c y : Q) (N k : nat) :
  0 <= y -> (1 + y) ^ Z.of_nat N < float_huge -> (k <= N)%nat ->
  pysum_gen 0 (map (fun t => p <- pypow (1 + y) t ;; c // p) (pyrange 1 k))
  = Ok (coupons c y k).
Proof.
  intros Hy HN. induction k as [|k IH]; intros Hk.
  - reflexivity.
  - rewrite pyrange_S, map_app.
    rewrite (pysum_gen_app _ _ _ _ (IH ltac:(lia))). cbn [map pysum_gen].
    rewrite (discount_ok c y N) by (try assumption; lia).
    reflexivity.
Qed.

Lemma coupons_sum_inv (c y : Q) (k : nat) (v : Q) :
  pysum_gen 0 (map (fun t => p <- pypow (1 + y) t ;; c // p) (pyrange 1 k)) = Ok v ->
  v = coupons c y k.
Proof.
  revert v. induction k as [|k IH]; intros v H.
  - simpl in H. injection H as <-. reflexivity.
  - rewrite pyrange_S, map_app in H. cbn [map] in H.
    apply pysum_gen_snoc_inv in H. destruct H as [u [w [Hu [Hw ->]]]].
    apply IH in Hu. apply discount_inv in Hw. subst u w. reflexivity.
Qed.

Lemma coupons_sum_errors (c y acc : Q) (l : list Z) (e : exn) :
  pysum_gen acc (map (fun t => p <- pypow (1 + y) t ;; c // p) l) = Raise e ->
  e = ZeroDivisionError \/ e = OverflowError.
Proof.
  revert acc. induction l as [|t l IH]; intros acc H; cbn [map pysum_gen] in H.
  - discriminate.
  - destruct (p <- pypow (1 + y) t ;; c // p) as [v|e'] eqn:E; cbn [bind] in H.
    + apply (IH _ H).
    + injection H as <-. apply (discount_errors _ _ _ _ E).
Qed.

(** [pv_price] returns the discounted sum whenever the yield is not negative
    and the largest discount factor is in the range of a float. *)
Lemma pv_price_ok (F c y years : Q) :
  0 <= y -> (1 + y) ^ Z.max (Qceiling years) 0 < float_huge ->
  pv_price F c y years = Ok (pv_value F c y years).
Proof.
  intros Hy Hr. unfold pv_price, pv_value. cbv zeta.
  destruct (Z.max (Qceiling years) 0 =? 0)%Z; [reflexivity|].
  rewrite <- (Z2Nat.id (Z.max (Qceiling years) 0)) in Hr by lia.
  rewrite (coupons_sum_ok _ _ (Z.to_nat (Z.max (Qceiling years) 0))) by (try assumption; lia).
  cbn [bind].
  rewrite (discount_ok F y (Z.to_nat (Z.max (Qceiling years) 0))) by (try assumption; lia).
  reflexivity.
Qed.

(** Whatever [pv_price] returns is the discounted sum. *)
Lemma pv_price_inv (F c y years v : Q) :
  pv_price F c y years = Ok v -> v = pv_value F c y years.
Proof.
  unfold pv_price, pv_value. cbv zeta.
  destruct (Z.max (Qceiling years) 0 =? 0)%Z.
  - intros H. injection H as <-. reflexivity.
  - intros H. bind_inv H. bind_inv H. injection H as <-.
    apply coupons_sum_inv in E. apply discount_inv in E0. subst. reflexivity.
Qed.

Lemma pv_price_errors_only (F c y years : Q) (e : exn) :
  pv_price F c y years = Raise e -> e = ZeroDivisionError \/ e = OverflowError.
Proof.
  unfold pv_price. cbv zeta.
  destruct (Z.max (Qceiling years) 0 =? 0)%Z; [discriminate|].
  destruct (pysum_gen 0 _) as [v|e'] eqn:E; cbn [bind].
  - destruct (p <- pypow (1 + y) (Z.max (Qceiling years) 0) ;; F // p) as [w|e'] eqn:E';
      cbn [bind]; intros H; [discriminate|].
    injection H as <-. apply (discount_errors _ _ _ _ E').
  - intros H. injection H as <-. apply (coupons_sum_errors (F * c) y _ _ _ E).
Qed.


Lemma pv_price_matured (F c y years : Q) :
  (Qceiling years <= 0)%Z -> pv_price F c y years = Ok (F + F * c).
Proof.
  intros H. unfold pv_price.
  replace (Z.max (Qceiling years) 0) with 0%Z by lia. reflexivity.
Qed.

Lemma Qpower_1_nat (t : Z) : (1 + 0) ^ t == 1.
Proof.
  assert (H : 1 + 0 == 1) by ring. rewrite H. apply Qpower_1.
Qed.

(** At zero yield every discount factor is 1: the coupons are added as they
    are, in the order of [sum]. *)
Lemma coupons_zero_yield_sum (c : Q) (k : nat) :
  coupons c 0 k == pysum (repeat c k).
Proof.
  unfold pysum. induction k as [|k IH].
  - reflexivity.
  - cbn [coupons repeat]. rewrite repeat_cons, fold_left_app. cbn [fold_left].
    rewrite IH, Qpower_1_nat. field.
Qed.

(** In exact arithmetic that sum is [k] times the coupon. *)
Lemma coupons_zero_yield (c : Q) (k : nat) :
  coupons c 0 k == c * inject_Z (Z.of_nat k).
Proof.
  induction k as [|k IH].
  - simpl. ring.
  - cbn [coupons]. rewrite IH, Qpower_1_nat.
    rewrite Nat2Z.inj_succ. unfold Z.succ. rewrite inject_Z_plus. field.
Qed.

(** C9, as stated, fails at zero years: the code returns principal plus one
    coupon where the formula [F + c*F*n] gives the principal alone. *)
Lemma pv_price_zero_yield_zero_years :
  exists v, pv_price 1000 (5 # 100) 0 0 = Ok v /\ v == 1050
            /\ ~ v == 1000 + (5 # 100) * 1000 * 0.
Proof.
  exists (1000 + 1000 * (5 # 100)). split; [reflexivity|].
  split; [reflexivity|]. intros H. vm_compute in H. discriminate.
Qed.

(** C9 (amended): at zero yield and [n >= 1] whole years every discount
    factor is 1 and the price is the [n] coupons [F*c], added one after the
    other in the order of [sum], plus the principal [F]; at zero years (or
    less) the price is [F + F*c] whatever the yield, [-1] included. *)
Theorem pv_price_identities (F c y : Q) (n : Z) :
  ((1 <= n)%Z ->
   exists v, pv_price F c 0 (inject_Z n) = Ok v
             /\ v == pysum (repeat (F * c) (Z.to_nat n)) + F)
  /\ ((n <= 0)%Z -> pv_price F c y (inject_Z n) = Ok (F + F * c)).
Proof.
  split; intros Hn.
  - exists (pv_value F c 0 (inject_Z n)). split.
    + apply pv_price_ok; [apply Qle_refl|].
      rewrite Qpower_1_nat. reflexivity.
    + unfold pv_value. rewrite Qceiling_Z.
      replace (Z.max n 0) with n by lia.
      destruct (n =? 0)%Z eqn:E; [apply Z.eqb_eq in E; lia|].
      rewrite coupons_zero_yield_sum, Qpower_1_nat. field.
  - apply pv_price_matured. rewrite Qceiling_Z. exact Hn.
Qed.

Lemma pv_price_identities_witness :
  (exists v, pv_price 1000 (5 # 100) 0 (inject_Z 3) = Ok v
             /\ v == pysum (repeat (1000 * (5 # 100)) (Z.to_nat 3)) + 1000)
  /\ pv_price 1000 (5 # 100) (-1) (inject_Z 0) = Ok (1000 + 1000 * (5 # 100)).
Proof.
  split.
  - apply (proj1 (pv_price_identities 1000 (5 # 100) (-1) 3)). lia.
  - apply (proj2 (pv_price_identities 1000 (5 # 100) (-1) 0)). lia.
Defined.

(** ** The reported pricing mode *)

Lemma low_not_high (rating : string) :
  str_in rating LOW_RATED = true -> str_in rating HIGH_RATED = false.
Proof.
  unfold str_in. intros H.
  apply existsb_exists in H. destruct H as [x [Hin Heq]].
  apply String.eqb_eq in Heq. subst x.
  simpl in Hin.
  repeat (destruct Hin as [<- | Hin]; [reflexivity|]).
  contradiction.
Qed.

Lemma dispatch_flags_unread (F c : Q) (rating : string) (m : Q) (fr : Z)
      (uf fs uf' fs' : bool) :
  str_in rating HIGH_RATED = false ->
  dispatch F c rating m fr uf fs = dispatch F c rating m fr uf' fs'.
Proof.
  intros H. unfold dispatch. rewrite H. reflexivity.
Qed.

(** C1, as stated, fails: a CCC bond is priced by the low-rated rule under
    both settings of the flags, and the reported mode still follows the
    flags. *)
Lemma low_rated_mode_follows_flags :
  exists r1 r2,
    calculate_fraction_price 1000 (8 # 100) "CCC" 3 100 true false = Ok r1
    /\ calculate_fraction_price 1000 (8 # 100) "CCC" 3 100 false true = Ok r2
    /\ seller_total r1 = seller_total r2
    /\ seller_total r1 == 1060
    /\ pricing_mode r1 = "pv_forward"%string
    /\ pricing_mode r2 = "force_seller"%string.
Proof.
  eexists. eexists.
  split; [vm_compute; reflexivity|].
  split; [vm_compute; reflexivity|].
  split; [reflexivity|]. split; [reflexivity|]. split; reflexivity.
Qed.

(** C1 (amended): the reported pricing mode is a function of the two flags
    alone, for every rating; for a high-rated bond it names the rule that
    computed the seller total; for a low-rated bond every other field of the
    result is the same under all settings of the flags. *)
Theorem pricing_mode_from_flags
        (F c : Q) (rating : string) (m : Q) (fr : Z) (uf fs : bool) (r : PricingResult) :
  calculate_fraction_price F c rating m fr uf fs = Ok r ->
  ((pricing_mode r = "pv_forward"%string <-> uf = true /\ fs = false)
   /\ (pricing_mode r = "force_seller"%string <-> fs = true)
   /\ (pricing_mode r = "fallback"%string <-> uf = false /\ fs = false))
  /\ (str_in rating HIGH_RATED = true ->
      exists l, dispatch F c rating m fr uf fs = Ok l
        /\ (pricing_mode r = "pv_forward"%string ->
            pv_price F c (target_yield_for_time c m) m = Ok (l_seller_total l))
        /\ (pricing_mode r = "force_seller"%string ->
            l_seller_total l
            = F * (1 + c) * ((95 # 100) + (7 # 100) * (Qmin (Qmax m 0) 5 / 5)))
        /\ (pricing_mode r = "fallback"%string ->
            l_seller_total l = F * (1 + c) * (98 # 100)))
  /\ (str_in rating LOW_RATED = true ->
      forall uf' fs', exists r',
        calculate_fraction_price F c rating m fr uf' fs' = Ok r'
        /\ fraction_price r' = fraction_price r
        /\ seller_total r' = seller_total r
        /\ buyer_expected_yield_pct r' = buyer_expected_yield_pct r
        /\ buyer_interest_projection r' = buyer_interest_projection r
        /\ used_yield r' = used_yield r).
Proof.
  intros H. unfold calculate_fraction_price in H.
  bind_inv H. bind_inv H. bind_inv H. bind_inv H.
  injection H as <-. cbn [pricing_mode fraction_price seller_total
    buyer_expected_yield_pct buyer_interest_projection used_yield].
  split; [|split].
  - unfold mode_label. destruct uf, fs; simpl;
      repeat split; intros; try discriminate; try reflexivity;
      try (destruct H; discriminate).
  - intros Hh. exists v. split; [exact E|].
    unfold dispatch in E. bind_inv E. rewrite Hh in E.
    unfold mode_label. destruct uf, fs; simpl in E |- *.
    + bind_inv E. bind_inv E. injection E as <-.
      repeat split; intros; try discriminate; reflexivity.
    + bind_inv E. bind_inv E. bind_inv E. injection E as <-.
      repeat split; intros; try discriminate. assumption.
    + bind_inv E. bind_inv E. injection E as <-.
      repeat split; intros; try discriminate; reflexivity.
    + bind_inv E. bind_inv E. injection E as <-.
      repeat split; intros; try discriminate; reflexivity.
  - intros Hl uf' fs'. apply low_not_high in Hl.
    unfold calculate_fraction_price.
    rewrite (dispatch_flags_unread F c rating m fr uf' fs' uf fs Hl), E.
    cbn [bind]. rewrite E0, E1, E2. cbn [bind].
    eexists. split; [reflexivity|]. repeat split.
Qed.

Lemma pricing_mode_from_flags_witness :
  exists r,
    calculate_fraction_price 1000 (8 # 100) "CCC" 3 100 true false = Ok r
    /\ (pricing_mode r = "pv_forward"%string <-> true = true /\ false = false).
Proof.
  eexists. split.
  - vm_compute. reflexivity.
  - refine (proj1 (proj1 (pricing_mode_from_flags 1000 (8 # 100) "CCC" 3 100 true false _ _))).
    vm_compute. reflexivity.
Defined.

(** ** Rounding of the per-fraction price *)

(** C2, as stated, fails for a rating in neither list: the per-fraction
    price is the unrounded quotient. *)
Lemma unclassified_fraction_price_unrounded :
  exists r l,
    calculate_fraction_price (1234567 # 1000) (8 # 100) "XYZ" 3 100 true false = Ok r
    /\ dispatch (1234567 # 1000) (8 # 100) "XYZ" 3 100 true false = Ok l
    /\ fraction_price r == 1234567 # 100000
    /\ pyround (l_seller_total l / inject_Z 100) 2 == 1235 # 100
    /\ ~ fraction_price r == pyround (l_seller_total l / inject_Z 100) 2.
Proof.
  eexists. eexists.
  split; [vm_compute; reflexivity|].
  split; [vm_compute; reflexivity|].
  split; [reflexivity|]. split; [reflexivity|].
  intros H. vm_compute in H. discriminate.
Qed.

(** C2 (amended): for a rating of [HIGH_RATED] or [LOW_RATED] the
    per-fraction price is the seller total divided by the number of
    fractions, rounded to two decimals; for any other rating it is the face
    value divided by the number of fractions, not rounded.  In every branch
    the buyer cost is the per-fraction price times the number of
    fractions. *)
Theorem fraction_price_rounding
        (F c : Q) (rating : string) (m : Q) (fr : Z) (uf fs : bool) (r : PricingResult) :
  calculate_fraction_price F c rating m fr uf fs = Ok r ->
  exists l,
    dispatch F c rating m fr uf fs = Ok l
    /\ fraction_price r = l_fraction_price l
    /\ l_buyer_cost l == fraction_price r * inject_Z fr
    /\ (str_in rating HIGH_RATED || str_in rating LOW_RATED = true ->
        fraction_price r = pyround (l_seller_total l / inject_Z fr) 2)
    /\ (str_in rating HIGH_RATED || str_in rating LOW_RATED = false ->
        fraction_price r = F / inject_Z fr
        /\ l_seller_total l = fraction_price r * inject_Z fr).
Proof.
  intros H. unfold calculate_fraction_price in H.
  bind_inv H. bind_inv H. bind_inv H. bind_inv H.
  injection H as <-. cbn [fraction_price].
  exists v. split; [exact E|]. split; [reflexivity|].
  clear E0 E1 E2 v0 v1 v2.
  unfold dispatch in E. bind_inv E. apply pydiv_inv in E0. destruct E0 as [-> _].
  destruct (str_in rating HIGH_RATED).
  - cbn [orb]. destruct (uf && negb fs).
    + bind_inv E. bind_inv E. bind_inv E. injection E as <-.
      apply pydiv_inv in E1. destruct E1 as [-> _]. cbn.
      split; [reflexivity|]. split; [reflexivity|discriminate].
    + destruct fs.
      * bind_inv E. bind_inv E. injection E as <-.
        apply pydiv_inv in E0. destruct E0 as [-> _]. cbn.
        split; [reflexivity|]. split; [reflexivity|discriminate].
      * bind_inv E. bind_inv E. injection E as <-.
        apply pydiv_inv in E0. destruct E0 as [-> _]. cbn.
        split; [reflexivity|]. split; [reflexivity|discriminate].
  - cbn [orb]. destruct (str_in rating LOW_RATED).
    + bind_inv E. bind_inv E. injection E as <-.
      apply pydiv_inv in E0. destruct E0 as [-> _]. cbn.
      split; [reflexivity|]. split; [reflexivity|discriminate].
    + injection E as <-. cbn.
      split; [reflexivity|]. split; [discriminate|]. intros _. split; reflexivity.
Qed.

Lemma fraction_price_rounding_witness :
  exists r,
    calculate_fraction_price 1000 (8 # 100) "AAA" 3 100 true false = Ok r
    /\ exists l,
        dispatch 1000 (8 # 100) "AAA" 3 100 true false = Ok l
        /\ fraction_price r = pyround (l_seller_total l / inject_Z 100) 2.
Proof.
  eexists. split.
  - vm_compute. reflexivity.
  - edestruct (fraction_price_rounding 1000 (8 # 100) "AAA" 3 100 true false)
      as [l [Hl [_ [_ [Hr _]]]]].
    + vm_compute. reflexivity.
    + exists l. split; [exact Hl|]. apply Hr. reflexivity.
Defined.

(** ** Null yields *)

Lemma truthy_opt_zero (v : Q) : v == 0 -> truthy_opt (Some v) = false.
Proof.
  intros H. simpl. unfold truthy.
  apply Qeq_bool_iff in H. rewrite H. reflexivity.
Qed.

(** C10: a computed buyer yield of exactly zero is reported as null, and so
    is an internal yield [Y] of zero; in particular a zero coupon under a
    rating outside [HIGH_RATED] gives a null buyer yield although the yield
    solver is never called. *)
Theorem zero_yield_reported_as_null
        (face_value coupon_rate : Q) (rating : string) (maturity_years : Q)
        (fractions : Z) (use_pv_forward force_seller_target : bool)
        (r : PricingResult) :
  calculate_fraction_price face_value coupon_rate rating maturity_years fractions
    use_pv_forward force_seller_target = Ok r ->
  exists l,
    dispatch face_value coupon_rate rating maturity_years fractions
      use_pv_forward force_seller_target = Ok l
    /\ (forall v, l_buyer_yield l = Some v -> v == 0 -> buyer_expected_yield_pct r = None)
    /\ (forall Y, l_Y l = Some Y -> Y == 0 -> used_yield r = None)
    /\ (str_in rating HIGH_RATED = false -> coupon_rate == 0 ->
        buyer_expected_yield_pct r = None /\ used_yield r = None).
Proof.
  intros H. unfold calculate_fraction_price in H.
  bind_inv H. bind_inv H. bind_inv H. bind_inv H.
  injection H as <-. cbn [buyer_expected_yield_pct used_yield].
  exists v. split; [exact E|].
  assert (Hby : forall x, l_buyer_yield v = Some x -> x == 0 ->
            (if truthy_opt (l_buyer_yield v)
             then option_map (fun v0 => pyround v0 2) (l_buyer_yield v) else None) = None).
  { intros x Hx Hz. rewrite Hx. rewrite (truthy_opt_zero x Hz). reflexivity. }
  split; [exact Hby|]. split.
  - intros Y HY Hz. rewrite HY. rewrite (truthy_opt_zero Y Hz). reflexivity.
  - intros Hh Hc. unfold dispatch in E. bind_inv E. rewrite Hh in E.
    destruct (str_in rating LOW_RATED).
    + bind_inv E. bind_inv E. injection E as <-.
      cbn [l_buyer_yield l_Y truthy_opt]. split; [|reflexivity].
      assert (Hz : v5 * 100 == 0).
      { unfold pydiv in E5. destruct (Qeq_bool _ 0) eqn:Hb; [discriminate|].
        injection E5 as <-. rewrite Hc. unfold Qdiv. ring. }
      unfold truthy. rewrite (proj2 (Qeq_bool_iff _ _) Hz). reflexivity.
    + injection E as <-. cbn [l_buyer_yield l_Y truthy_opt]. split; [|reflexivity].
      assert (Hz : coupon_rate * 100 == 0) by (rewrite Hc; ring).
      unfold truthy. rewrite (proj2 (Qeq_bool_iff _ _) Hz). reflexivity.
Qed.


Lemma zero_yield_reported_as_null_witness :
  (exists r,
     calculate_fraction_price 1000 0 "CCC" 3 100 true false = Ok r
     /\ buyer_expected_yield_pct r = None)
  /\ (exists r,
        calculate_fraction_price 1000 (1 # 100) "AAA" 5 100 true false = Ok r
        /\ used_yield r = None).
Proof.
  split.
  - eexists. split.
    + vm_compute. reflexivity.
    + edestruct (zero_yield_reported_as_null 1000 0 "CCC" 3 100 true false)
        as [l [_ [_ [_ Hz]]]].
      * vm_compute. reflexivity.
      * apply Hz; reflexivity.
  - eexists. split.
    + vm_compute. reflexivity.
    + edestruct (zero_yield_reported_as_null 1000 (1 # 100) "AAA" 5 100 true false)
        as [l [Hl [_ [HY _]]]].
      * vm_compute. reflexivity.
      * apply (HY (target_yield_for_time (1 # 100) 5)).
        -- vm_compute in Hl. injection Hl as <-. reflexivity.
        -- reflexivity.
Defined.

(** ** The price as a function of the yield *)

Lemma Qpower_step (x : Q) (k : nat) :
  ~ x == 0 -> x ^ (1 + Z.of_nat k) == x * x ^ Z.of_nat k.
Proof.
  intros Hx. rewrite Qpower_plus by exact Hx. rewrite Qpower_1_r. reflexivity.
Qed.

Lemma Qpower_base_le (x z : Q) (k : nat) :
  0 < x -> x <= z -> 0 < x ^ Z.of_nat k /\ x ^ Z.of_nat k <= z ^ Z.of_nat k.
Proof.
  intros Hx Hxz. induction k as [|k [IH0 IH]].
  - simpl. split; [reflexivity | apply Qle_refl].
  - replace (Z.of_nat (S k)) with (1 + Z.of_nat k)%Z by lia.
    rewrite !Qpower_step by (intros E; lra). split; nra.
Qed.

Lemma quotient_antitone (c p q : Q) :
  0 <= c -> 0 < p -> p <= q -> c / q <= c / p.
Proof.
  intros Hc Hp Hpq.
  apply Qle_shift_div_l; [exact Hp|].
  assert (E : c / q * p == c * p / q) by (field; intros E; lra).
  rewrite E. apply Qle_shift_div_r; [lra | nra].
Qed.

(** The discounted coupons do not grow with the yield, and the first one
    alone accounts for a gap proportional to the difference of the discount
    factors. *)
Lemma coupons_gap (c y1 y2 : Q) (k : nat) :
  0 <= c -> -1 < y1 -> y1 <= y2 ->
  coupons c y2 k <= coupons c y1 k
  /\ ((1 <= k)%nat -> c / (1 + y1) - c / (1 + y2) <= coupons c y1 k - coupons c y2 k).
Proof.
  intros Hc H1 H12. induction k as [|k [IHle IHgap]].
  - split; [apply Qle_refl | lia].
  - cbn [coupons].
    assert (Ht : c / (1 + y2) ^ (1 + Z.of_nat k) <= c / (1 + y1) ^ (1 + Z.of_nat k)).
    { replace (1 + Z.of_nat k)%Z with (Z.of_nat (S k)) by lia.
      destruct (Qpower_base_le (1 + y1) (1 + y2) (S k)) as [Hp Hle]; [lra | lra |].
      apply quotient_antitone; assumption. }
    split; [lra|]. intros _. destruct k as [|k].
    + cbn [coupons Z.of_nat Z.add]. rewrite !Qpower_1_r. lra.
    + assert (Hg := IHgap ltac:(lia)). lra.
Qed.

Lemma face_antitone (F y1 y2 : Q) (n : Z) :
  0 <= F -> -1 < y1 -> y1 <= y2 -> (0 <= n)%Z ->
  F / (1 + y2) ^ n <= F / (1 + y1) ^ n.
Proof.
  intros HF H1 H12 Hn.
  rewrite <- (Z2Nat.id n) by exact Hn.
  destruct (Qpower_base_le (1 + y1) (1 + y2) (Z.to_nat n)) as [Hp Hle]; [lra | lra |].
  apply quotient_antitone; assumption.
Qed.

(** The price falls by at least [coupon * (y2 - y1) / ((1+y1)*(1+y2))] from
    the yield [y1] to the yield [y2]. *)
Lemma pv_value_gap (F c y1 y2 years : Q) :
  0 <= F -> 0 <= F * c -> -1 < y1 -> y1 <= y2 -> (1 <= Qceiling years)%Z ->
  F * c * (y2 - y1) / ((1 + y1) * (1 + y2))
  <= pv_value F c y1 years - pv_value F c y2 years.
Proof.
  intros HF Hc H1 H12 Hn. unfold pv_value.
  replace (Z.max (Qceiling years) 0) with (Qceiling years) by lia.
  destruct (Qceiling years =? 0)%Z eqn:E; [apply Z.eqb_eq in E; lia|].
  destruct (coupons_gap (F * c) y1 y2 (Z.to_nat (Qceiling years)) Hc H1 H12) as [_ Hg].
  assert (Hg' := Hg ltac:(lia)).
  pose proof (face_antitone F y1 y2 (Qceiling years) HF H1 H12 ltac:(lia)) as Hf.
  assert (Ed : F * c * (y2 - y1) / ((1 + y1) * (1 + y2))
               == F * c / (1 + y1) - F * c / (1 + y2))
    by (field; split; intros E'; lra).
  rewrite Ed. lra.
Qed.



(** Every yield between 0 and [U] is priced, when the discount factor of [U]
    over the whole maturity is in the range of a float. *)
Lemma pv_price_bounded (F c years U y : Q) :
  (1 + U) ^ Z.max (Qceiling years) 0 < float_huge -> 0 <= y -> y <= U ->
  pv_price F c y years = Ok (pv_value F c y years).
Proof.
  intros HU H0 H1. apply pv_price_ok; [exact H0|].
  eapply Qle_lt_trans; [|exact HU].
  rewrite <- (Z2Nat.id (Z.max (Qceiling years) 0)) by lia.
  apply Qpower_base_le; lra.
Qed.

(** ** The yield solver *)


(** The float product is positive when the exact one is above 2^-1075;
    the two factors then have the same strict sign. *)
Lemma positive_product_iff (x y : Q) :
  positive_product x y = true <-> float_tiny < x * y.
Proof. apply Qlt_bool_iff. Qed.


Lemma nonpositive_product_iff (x y : Q) :
  nonpositive_product x y = true <-> x * y <= float_tiny.
Proof. apply Qle_bool_iff. Qed.

Section BisectionSteps.

Variables F c price years eps U : Q.

Let f : Q -> Q := price_gap F c price years.

Hypothesis HU : (1 + U) ^ Z.max (Qceiling years) 0 < float_huge.

Lemma bracket_after_S (k : nat) (s : Q * Q * Q * Q) :
  bracket_after f (S k) s = bracket_after f k (bisect_step f s).
Proof. reflexivity. Qed.


End BisectionSteps.


(** It also fails where the product of two gaps of the same sign
    underflows: for a face value of 1e-170 priced at 0 the gap is positive
    at [lo], at [hi] and at 10, the float product [fa * fb] is [0.0], and
    the solver goes on to return the first midpoint. *)
Lemma solver_brackets_on_underflow :
  let F := 1 # (10 ^ 170) in
  same_strict_sign (price_gap F (5 # 100) 0 1 default_lo)
                   (price_gap F (5 # 100) 0 1 default_hi)
  /\ same_strict_sign (price_gap F (5 # 100) 0 1 default_lo)
                      (price_gap F (5 # 100) 0 1 10)
  /\ positive_product (price_gap F (5 # 100) 0 1 default_lo)
                      (price_gap F (5 # 100) 0 1 default_hi) = false
  /\ exists m,
      implied_yield_for_price F (5 # 100) 0 1
        default_lo default_hi default_eps default_max_iter = Ok (Some m)
      /\ m == (1 # 2) * (default_lo + default_hi).
Proof.
  cbv zeta.
  split; [left; split; vm_compute; reflexivity|].
  split; [left; split; vm_compute; reflexivity|].
  split; [vm_compute; reflexivity|].
  eexists. split; [vm_compute; reflexivity | reflexivity].
Qed.

Section Bisection.

Variables F c price years eps : Q.

Let f : Q -> Q := price_gap F c price years.


End Bisection.


(** ** Convergence of the bisection *)

Section Convergence.
Variables F c price years eps y K L U : Q.

Let f : Q -> Q := price_gap F c price years.

Hypothesis HL : 0 <= L.
Hypothesis HU : (1 + U) ^ Z.max (Qceiling years) 0 < float_huge.
Hypothesis HK : 0 < K.
Hypothesis Heps : 0 < eps.
Hypothesis Htiny : float_tiny < eps * eps.
Hypothesis Hroot : f y == 0.
Hypothesis Hgap :
  forall y1 y2, L <= y1 -> y1 <= y2 -> y2 <= U -> K * (y2 - y1) <= f y1 - f y2.

Lemma Qpower_half_step (k : nat) :
  (1 # 2) ^ Z.of_nat (S k) == (1 # 2) * (1 # 2) ^ Z.of_nat k.
Proof.
  replace (Z.of_nat (S k)) with (1 + Z.of_nat k)%Z by lia.
  apply Qpower_step. intros E. vm_compute in E. discriminate.
Qed.

Lemma gap_bounds_distance (m : Q) :
  L <= m -> m <= U -> L <= y -> y <= U -> K * Qabs (m - y) <= Qabs (f m).
Proof.
  intros H1 H2 H3 H4.
  destruct (Qlt_le_dec m y) as [Hlt | Hge].
  - pose proof (Hgap m y H1 (Qlt_le_weak _ _ Hlt) H4) as Hg.
    rewrite (Qabs_neg (m - y)) by lra. rewrite (Qabs_pos (f m)) by nra. lra.
  - pose proof (Hgap y m H3 Hge H2) as Hg.
    rewrite (Qabs_pos (m - y)) by lra. rewrite (Qabs_neg (f m)) by nra. lra.
Qed.

Lemma bisect_converges (k : nat) (a b fa fb : Q) :
  L <= a -> a <= y -> y <= b -> b <= U -> fa = f a ->
  exists m,
    bisect F c price years eps k a b fa fb = Ok m
    /\ a <= m <= b
    /\ (Qabs (f m) < eps \/ Qabs (m - y) <= (b - a) * (1 # 2) ^ Z.of_nat (S k)).
Proof.
  revert a b fa fb. induction k as [|k IH]; intros a b fa fb Ha Hay Hyb Hb Hfa.
  - exists ((1 # 2) * (a + b)). split; [reflexivity|]. split; [lra|]. right.
    cbn [Z.of_nat Pos.of_succ_nat]. rewrite Qpower_1_r.
    apply Qabs_Qle_condition. lra.
  - cbn [bisect]. set (m0 := (1 # 2) * (a + b)).
    assert (Hm0 : a <= m0 <= b) by (unfold m0; lra).
    rewrite (pv_price_bounded F c years U) by (try exact HU; lra). cbn [bind].
    change (pv_value F c m0 years - price) with (f m0).
    pose proof float_tiny_pos as Htp.
    destruct (Qlt_bool (Qabs (f m0)) eps) eqn:Et.
    + exists m0. split; [reflexivity|]. split; [exact Hm0|]. left.
      apply Qlt_bool_iff. exact Et.
    + subst fa.
      assert (Hbig : eps <= Qabs (f m0)).
      { apply Qnot_lt_le. intros Hc. apply Qlt_bool_iff in Hc. congruence. }
      destruct (nonpositive_product (f a) (f m0)) eqn:Es.
      * apply nonpositive_product_iff in Es.
        assert (Hym : y <= m0).
        { destruct (Qlt_le_dec m0 y) as [Hlt | Hge]; [exfalso | exact Hge].
          pose proof (Hgap m0 y ltac:(lra) ltac:(lra) ltac:(lra)) as G1.
          pose proof (Hgap a m0 ltac:(lra) ltac:(lra) ltac:(lra)) as G2.
          assert (P1 : 0 < f m0) by nra.
          rewrite Qabs_pos in Hbig by lra.
          assert (P2 : f m0 <= f a) by nra.
          assert (P3 : eps * eps <= f a * f m0) by nra.
          lra. }
        destruct (IH a m0 (f a) (f m0) Ha Hay Hym ltac:(lra) eq_refl)
          as [m [Hr [Hm Hd]]].
        exists m. split; [exact Hr|]. split; [lra|].
        destruct Hd as [Hd | Hd]; [left; exact Hd | right].
        rewrite (Qpower_half_step (S k)).
        eapply Qle_trans; [exact Hd|]. unfold m0.
        assert (0 < (1 # 2) ^ Z.of_nat (S k)) by (apply Qpower_0_lt; reflexivity).
        nra.
      * assert (Es' : float_tiny < f a * f m0).
        { apply Qnot_le_lt. intros Hc. apply nonpositive_product_iff in Hc. congruence. }
        assert (Hmy : m0 <= y).
        { destruct (Qlt_le_dec y m0) as [Hlt | Hge]; [exfalso | exact Hge].
          pose proof (Hgap y m0 ltac:(lra) ltac:(lra) ltac:(lra)) as G1.
          pose proof (Hgap a y ltac:(lra) ltac:(lra) ltac:(lra)) as G2.
          assert (f m0 < 0) by nra. assert (0 <= f a) by nra. nra. }
        destruct (IH m0 b (f m0) fb ltac:(lra) Hmy Hyb Hb eq_refl)
          as [m [Hr [Hm Hd]]].
        exists m. split; [exact Hr|]. split; [lra|].
        destruct Hd as [Hd | Hd]; [left; exact Hd | right].
        rewrite (Qpower_half_step (S k)).
        eapply Qle_trans; [exact Hd|]. unfold m0.
        assert (0 < (1 # 2) ^ Z.of_nat (S k)) by (apply Qpower_0_lt; reflexivity).
        nra.
Qed.

End Convergence.

(** ** Round trip *)

(** C3, as stated, fails for a yield below the lower end [lo] of the search
    interval: the root is not bracketed, also not after the widening, and
    the solver returns [None]. *)
Lemma round_trip_below_lo :
  exists P,
    pv_price 1000 (5 # 100) (1 # 1000000000) 1 = Ok P
    /\ implied_yield_for_price 1000 (5 # 100) P 1
         default_lo default_hi default_eps default_max_iter = Ok None.
Proof.
  eexists. split; [vm_compute; reflexivity|]. vm_compute. reflexivity.
Qed.

(** It also fails where the price is so flat in the yield that the first
    midpoint already meets the tolerance on the price. *)
Lemma round_trip_flat_price :
  exists P m,
    pv_price (1 # 100000000) (1 # 2) (9 # 10) 1 = Ok P
    /\ implied_yield_for_price (1 # 100000000) (1 # 2) P 1
         default_lo default_hi default_eps default_max_iter = Ok (Some m)
    /\ m == 100000001 # 200000000
    /\ ~ Qabs (m - (9 # 10)) < 1 # 10000.
Proof.
  eexists. eexists. split; [vm_compute; reflexivity|].
  split; [vm_compute; reflexivity|]. split; [reflexivity|].
  intros H. vm_compute in H. discriminate.
Qed.

Lemma discount_factor_30 (n : Z) :
  (1 <= n <= 30)%Z -> (1 + 1) ^ Z.max (Qceiling (inject_Z n)) 0 < float_huge.
Proof.
  intros Hn. rewrite Qceiling_Z. replace (Z.max n 0) with n by lia.
  destruct (Qpower_exp_le (1 + 1) (Z.to_nat n) 30 ltac:(lra) ltac:(lia)) as [_ H].
  rewrite Z2Nat.id in H by lia.
  eapply Qle_lt_trans; [exact H|]. reflexivity.
Qed.

(** C3 (amended): for a face value [F > 0], a coupon rate [0 < c < 1] with
    an annual coupon [F*c] of at least 0.0004, a yield [y] with
    [lo <= y < 1] and a whole maturity [1 <= n <= 30], the solver with its
    default parameters, run on the price at yield [y], returns a yield
    within 1e-4 of [y]. *)
Theorem yield_round_trip (F c y : Q) (n : Z) :
  0 < F -> 0 < c -> c < 1 -> (4 # 10000) <= F * c ->
  default_lo <= y -> y < 1 -> (1 <= n <= 30)%Z ->
  exists P m,
    pv_price F c y (inject_Z n) = Ok P
    /\ implied_yield_for_price F c P (inject_Z n)
         default_lo default_hi default_eps default_max_iter = Ok (Some m)
    /\ Qabs (m - y) < 1 # 10000.
Proof.
  intros HF Hc0 Hc1 Hc Hlo Hhi Hn.
  assert (Hlo0 : 0 < default_lo) by reflexivity.
  assert (Hper : (1 <= Qceiling (inject_Z n))%Z) by (rewrite Qceiling_Z; lia).
  pose proof (discount_factor_30 n Hn) as HU.
  set (years := inject_Z n) in *.
  set (P := pv_value F c y years).
  set (f := price_gap F c P years).
  set (K := F * c * (1 # 4)).
  assert (HK : (1 # 10000) <= K) by (unfold K; lra).
  assert (Hroot : f y == 0) by (unfold f, price_gap, P; ring).
  assert (Hgap : forall y1 y2, default_lo <= y1 -> y1 <= y2 -> y2 <= 1 ->
                   K * (y2 - y1) <= f y1 - f y2).
  { intros y1 y2 H1 H12 H2.
    pose proof (pv_value_gap F c y1 y2 years ltac:(lra) ltac:(lra) ltac:(lra) H12 Hper) as G.
    assert (E : f y1 - f y2 == pv_value F c y1 years - pv_value F c y2 years)
      by (unfold f, price_gap; ring).
    rewrite E. eapply Qle_trans; [|exact G].
    assert (E2 : K * (y2 - y1) == F * c * (y2 - y1) / 4) by (unfold K; field).
    rewrite E2. apply quotient_antitone; nra. }
  assert (HK0 : 0 < K) by lra.
  assert (HL : 0 <= default_lo) by (vm_compute; discriminate).
  assert (He0 : 0 < default_eps) by reflexivity.
  assert (Het : float_tiny < default_eps * default_eps) by reflexivity.
  assert (Hfa : 0 <= f default_lo).
  { pose proof (Hgap default_lo y ltac:(lra) Hlo ltac:(lra)) as G. nra. }
  assert (Hfb : f 1 < 0).
  { pose proof (Hgap y 1 Hlo ltac:(lra) ltac:(lra)) as G. nra. }
  destruct (bisect_converges F c P years default_eps y K default_lo 1 HL HU HK0 He0 Het
              Hroot Hgap
              default_max_iter default_lo 1 (f default_lo) (f 1)
              ltac:(lra) Hlo ltac:(lra) ltac:(lra) eq_refl)
    as [m [Hb [Hm Hd]]].
  exists P, m.
  split; [apply (pv_price_bounded F c years 1); [exact HU | lra | lra]|].
  split.
  - unfold implied_yield_for_price, default_hi.
    rewrite (pv_price_bounded F c years 1 default_lo) by (try exact HU; lra).
    rewrite (pv_price_bounded F c years 1 1) by (try exact HU; lra).
    cbn [bind].
    change (pv_value F c default_lo years - P) with (f default_lo).
    change (pv_value F c 1 years - P) with (f 1).
    assert (Eb : positive_product (f default_lo) (f 1) = false).
    { destruct (positive_product (f default_lo) (f 1)) eqn:Eb; [|reflexivity].
      apply positive_product_iff in Eb. pose proof float_tiny_pos. nra. }
    rewrite Eb. fold f in Hb. rewrite Hb. reflexivity.
  - destruct Hd as [Hd | Hd].
    + pose proof (gap_bounds_distance F c P years y K default_lo 1 HK0 Hroot Hgap m
                    ltac:(lra) ltac:(lra) Hlo ltac:(lra)) as G.
      fold f in Hd, G.
      assert (He : default_eps == 1 # 100000000) by reflexivity.
      pose proof (Qabs_nonneg (m - y)) as Hp.
      apply Qnot_le_lt. intros Hc'. nra.
    + eapply Qle_lt_trans; [exact Hd|]. vm_compute. reflexivity.
Qed.

Lemma yield_round_trip_witness :
  exists P m,
    pv_price 1000 (5 # 100) (3 # 100) (inject_Z 10) = Ok P
    /\ implied_yield_for_price 1000 (5 # 100) P (inject_Z 10)
         default_lo default_hi default_eps default_max_iter = Ok (Some m)
    /\ Qabs (m - (3 # 100)) < 1 # 10000.
Proof.
  apply (yield_round_trip 1000 (5 # 100) (3 # 100) 10).
  - reflexivity.
  - reflexivity.
  - reflexivity.
  - vm_compute. discriminate.
  - vm_compute. discriminate.
  - reflexivity.
  - lia.
Defined.

End PricingFacts.

(** * Properties of the recommendation service *)

Module RecommendFacts.
Import Recommend.

(** ** Sums *)

Lemma fold_left_qsum {A : Type} (f : A -> Q) (l : list A) (x : Q) :
  fold_left (fun w a => w + f a) l x == x + qsum f l.
Proof.
  revert x. induction l as [|a l IH]; intros x; simpl.
  - ring.
  - rewrite IH. ring.
Qed.

Lemma pysum_map_qsum {A : Type} (f : A -> Q) (l : list A) :
  pysum (map f l) == qsum f l.
Proof.
  unfold pysum. 
  assert (H : forall x, fold_left Qplus (map f l) x == x + qsum f l).
  { induction l as [|a l IH]; intros x; simpl; [ring | rewrite IH; ring]. }
  rewrite H. ring.
Qed.

Lemma qsum_le {A : Type} (f g : A -> Q) (l : list A) :
  (forall a, In a l -> f a <= g a) -> qsum f l <= qsum g l.
Proof.
  induction l as [|a l IH]; intros H; simpl.
  - apply Qle_refl.
  - apply Qplus_le_compat; [apply H; left; reflexivity|].
    apply IH. intros b Hb. apply H. right. exact Hb.
Qed.

Lemma qsum_nonneg {A : Type} (f : A -> Q) (l : list A) :
  (forall a, In a l -> 0 <= f a) -> 0 <= qsum f l.
Proof.
  induction l as [|a l IH]; intros H; simpl.
  - apply Qle_refl.
  - assert (Ha : 0 <= f a) by (apply H; left; reflexivity).
    assert (Hl : 0 <= qsum f l) by (apply IH; intros b Hb; apply H; right; exact Hb).
    lra.
Qed.

Lemma qsum_member_le {A : Type} (f : A -> Q) (l : list A) (a : A) :
  (forall b, In b l -> 0 <= f b) -> In a l -> f a <= qsum f l.
Proof.
  induction l as [|b l IH]; intros H Ha; simpl; [destruct Ha|].
  assert (Hb : 0 <= f b) by (apply H; left; reflexivity).
  assert (Hl : 0 <= qsum f l) by (apply qsum_nonneg; intros c Hc; apply H; right; exact Hc).
  destruct Ha as [<- | Ha].
  - lra.
  - assert (f a <= qsum f l) by (apply IH; [intros c Hc; apply H; right; exact Hc | exact Ha]).
    lra.
Qed.

Lemma qsum_zero {A : Type} (f : A -> Q) (l : list A) :
  (forall a, In a l -> f a == 0) -> qsum f l == 0.
Proof.
  induction l as [|a l IH]; intros H; simpl.
  - reflexivity.
  - rewrite (H a) by (left; reflexivity).
    rewrite IH by (intros b Hb; apply H; right; exact Hb). ring.
Qed.

Lemma qsum_div {A : Type} (f : A -> Q) (t : Q) (l : list A) :
  qsum (fun a => f a / t) l == qsum f l / t.
Proof.
  induction l as [|a l IH]; simpl.
  - unfold Qdiv. ring.
  - rewrite IH. unfold Qdiv. ring.
Qed.

Lemma risk_loop_ok (total : Q) (assets : list Asset) (bd : list Breakdown) (ws : Q) :
  ~ total == 0 ->
  risk_loop total assets bd ws
  = Ok (bd ++ map (breakdown_entry total) assets,
        fold_left (fun w a => w + risk_contribution (breakdown_entry total a)) assets ws).
Proof.
  intros Ht. revert bd ws. induction assets as [|a l IH]; intros bd ws; simpl.
  - rewrite app_nil_r. reflexivity.
  - rewrite pydiv_ok by exact Ht. cbn [bind]. rewrite IH.
    rewrite <- app_assoc. reflexivity.
Qed.

Lemma risk_score_in_unit (a : Asset) : 0 <= get_asset_risk_score a <= 1.
Proof.
  unfold get_asset_risk_score.
  assert (Hb : 0 <= dict_get RISK_MAP (risk_label a) (5 # 10) <= 9 # 10
               \/ dict_get RISK_MAP (risk_label a) (5 # 10) = 1).
  { destruct (risk_label a) as [s|]; simpl.
    - destruct (String.eqb s "high"); [right; reflexivity|].
      destruct (String.eqb s "medium-high"); [left; lra|].
      destruct (String.eqb s "medium"); [left; lra|].
      destruct (String.eqb s "low"); left; lra.
    - left. lra. }
  set (base := dict_get RISK_MAP (risk_label a) (5 # 10)) in *.
  destruct (String.eqb _ "bank_fd"); [lra|].
  destruct (String.eqb _ "stock").
  - destruct (Q.min_spec 1 (base + (1 # 10))) as [[_ ->] | [? ->]];
      destruct Hb as [Hb | ->]; lra.
  - destruct Hb as [Hb | ->]; lra.
Qed.

(** The facts about one call of [compute_portfolio_risk] on non-negative
    market values that C6 and C7 share. *)
Lemma portfolio_risk_shape (assets : list Asset) :
  (forall a, In a assets -> 0 <= get_float (market_value a)) ->
  exists total,
    compute_portfolio_risk assets
    = Ok (fold_left (fun w a => w + risk_contribution (breakdown_entry total a)) assets 0 * 100,
          map (breakdown_entry total) assets, total)
    /\ 0 < total
    /\ ((qsum (fun a => get_float (market_value a)) assets == 0 /\ total = 1)
        \/ (0 < qsum (fun a => get_float (market_value a)) assets
            /\ total == qsum (fun a => get_float (market_value a)) assets)).
Proof.
  intros Hnn. unfold compute_portfolio_risk.
  set (s := pysum (map (fun a => get_float (market_value a)) assets)).
  assert (Hs : s == qsum (fun a => get_float (market_value a)) assets)
    by apply pysum_map_qsum.
  assert (Hs0 : 0 <= s) by (rewrite Hs; apply qsum_nonneg; exact Hnn).
  destruct (truthy s) eqn:Et.
  - apply truthy_true in Et.
    assert (Hpos : 0 < s).
    { apply Qle_lteq in Hs0. destruct Hs0 as [H|H]; [exact H|].
      symmetry in H. contradiction. }
    exists s. rewrite risk_loop_ok by exact Et. cbn [bind fst snd].
    split; [reflexivity|]. split; [exact Hpos|]. right.
    split; [rewrite <- Hs; exact Hpos | exact Hs].
  - apply truthy_false in Et.
    exists 1. rewrite risk_loop_ok by (intros H; vm_compute in H; discriminate).
    cbn [bind fst snd]. split; [reflexivity|]. split; [reflexivity|].
    left. split; [rewrite <- Hs; exact Et | reflexivity].
Qed.

Lemma qsum_map {A B : Type} (f : B -> Q) (g : A -> B) (l : list A) :
  qsum f (map g l) = qsum (fun a => f (g a)) l.
Proof.
  induction l as [|a l IH]; simpl; [reflexivity | rewrite IH; reflexivity].
Qed.

Lemma contribution_bounds (total : Q) (a : Asset) :
  0 < total -> 0 <= get_float (market_value a) ->
  0 <= alloc_pct (breakdown_entry total a)
  /\ 0 <= risk_contribution (breakdown_entry total a) <= alloc_pct (breakdown_entry total a).
Proof.
  intros Ht Hm. cbn [breakdown_entry alloc_pct risk_contribution].
  pose proof (risk_score_in_unit a) as [Hs0 Hs1].
  assert (Ha : 0 <= get_float (market_value a) / total).
  { apply Qle_shift_div_l; [exact Ht | lra]. }
  split; [exact Ha|]. split.
  - apply Qmult_le_0_compat; assumption.
  - rewrite <- (Qmult_1_r (get_float (market_value a) / total)) at 2.
    rewrite !(Qmult_comm (get_float (market_value a) / total)).
    apply Qmult_le_compat_r; assumption.
Qed.

(** In exact arithmetic the score of non-negative market values lies in
    [[0, 100]]: every raw risk score lies in [[0, 1]], every allocation is
    non-negative and the allocations sum to at most one. *)
Lemma exact_portfolio_risk_in_range (assets : list Asset) :
  (forall a, In a assets -> 0 <= get_float (market_value a)) ->
  exists score bd tv,
    compute_portfolio_risk assets = Ok (score, bd, tv)
    /\ 0 <= score <= 100
    /\ Forall (fun e => 0 <= risk_score_raw e <= 1 /\ 0 <= alloc_pct e) bd
    /\ qsum alloc_pct bd <= 1.
Proof.
  intros Hnn.
  destruct (portfolio_risk_shape assets Hnn) as [total [Hc [Ht Hcase]]].
  eexists. eexists. eexists. split; [exact Hc|].
  assert (Hall : qsum alloc_pct (map (breakdown_entry total) assets) <= 1).
  { rewrite qsum_map. cbn [breakdown_entry alloc_pct].
    rewrite (qsum_div (fun a => get_float (market_value a)) total assets).
    apply Qle_shift_div_r; [exact Ht|].
    destruct Hcase as [[Hz ->] | [_ Heq]]; [rewrite Hz; lra | rewrite Heq; lra]. }
  assert (Hw : 0 <= qsum (fun a => risk_contribution (breakdown_entry total a)) assets <= 1).
  { split.
    - apply qsum_nonneg. intros a Ha.
      apply (contribution_bounds total a Ht (Hnn a Ha)).
    - eapply Qle_trans; [|exact Hall]. rewrite qsum_map.
      apply qsum_le. intros a Ha.
      apply (contribution_bounds total a Ht (Hnn a Ha)). }
  split; [|split; [|exact Hall]].
  - rewrite fold_left_qsum. lra.
  - apply Forall_forall. intros e He. apply in_map_iff in He.
    destruct He as [a [<- Ha]]. split.
    + apply risk_score_in_unit.
    + apply (contribution_bounds total a Ht (Hnn a Ha)).
Qed.

(** C6, as stated, fails when market values of opposite sign cancel: the
    sum is zero, the total is floored at one, and the allocations and the
    score are not zero. *)
Lemma offsetting_values_not_zero :
  let assets :=
    [ mkAsset (Some "LONG"%string) (Some "stock"%string) None (Some "high"%string)
              (Some 5) None None;
      mkAsset (Some "SHORT"%string) (Some "other"%string) None (Some "low"%string)
              (Some (-5)) None None ] in
  pysum (map (fun a => get_float (market_value a)) assets) == 0
  /\ exists score bd tv,
      compute_portfolio_risk assets = Ok (score, bd, tv)
      /\ score == 400
      /\ map alloc_pct bd = [5 / 1; -5 / 1].
Proof.
  split; [reflexivity|].
  eexists. eexists. eexists. split; [vm_compute; reflexivity|].
  split; reflexivity.
Qed.

(** C6 (amended): when every market value is non-negative and they sum to
    zero (the empty list included) the scorer returns without raising, the
    score is zero, the reported total is the floor one, and every breakdown
    entry has a zero allocation and a zero contribution. *)
Theorem zero_portfolio_risk (assets : list Asset) :
  (forall a, In a assets -> 0 <= get_float (market_value a)) ->
  pysum (map (fun a => get_float (market_value a)) assets) == 0 ->
  exists score bd,
    compute_portfolio_risk assets = Ok (score, bd, 1)
    /\ score == 0
    /\ List.length bd = List.length assets
    /\ Forall (fun e => alloc_pct e == 0 /\ risk_contribution e == 0) bd.
Proof.
  intros Hnn Hsum. rewrite pysum_map_qsum in Hsum.
  destruct (portfolio_risk_shape assets Hnn) as [total [Hc [Ht Hcase]]].
  destruct Hcase as [[_ ->] | [Hpos _]]; [|rewrite Hsum in Hpos; lra].
  eexists. eexists. split; [exact Hc|].
  assert (Hmv : forall a, In a assets -> get_float (market_value a) == 0).
  { intros a Ha.
    pose proof (qsum_member_le (fun a => get_float (market_value a)) assets a Hnn Ha) as Hle.
    cbn beta in Hle. rewrite Hsum in Hle. specialize (Hnn a Ha). lra. }
  assert (Hentry : forall a, In a assets ->
            alloc_pct (breakdown_entry 1 a) == 0
            /\ risk_contribution (breakdown_entry 1 a) == 0).
  { intros a Ha. cbn [breakdown_entry alloc_pct risk_contribution].
    rewrite (Hmv a Ha). split; unfold Qdiv; ring. }
  split; [|split].
  - rewrite fold_left_qsum.
    assert (Hz : qsum (fun a => risk_contribution (breakdown_entry 1 a)) assets == 0).
    { apply qsum_zero. intros a Ha. apply Hentry. exact Ha. }
    rewrite Hz. ring.
  - apply length_map.
  - apply Forall_forall. intros e He. apply in_map_iff in He.
    destruct He as [a [<- Ha]]. apply Hentry. exact Ha.
Qed.

Lemma zero_portfolio_risk_witness :
  exists score bd,
    compute_portfolio_risk
      [mkAsset (Some "CASH"%string) (Some "other"%string) None None (Some 0) None None]
    = Ok (score, bd, 1) /\ score == 0.
Proof.
  destruct (zero_portfolio_risk
              [mkAsset (Some "CASH"%string) (Some "other"%string) None None (Some 0) None None])
    as [score [bd [Hc [Hs _]]]].
  - intros a [<- | []]. simpl. lra.
  - reflexivity.
  - exists score, bd. split; assumption.
Defined.

(** ** Bond selection *)

Lemma insert_desc_head {A : Type} (x : Q * A) (l : list (Q * A)) :
  exists t, insert_desc x l = match l with
                               | [] => x
                               | y :: _ => if Qle_bool (fst y) (fst x) then x else y
                               end :: t.
Proof.
  destruct l as [|y l]; simpl.
  - exists []. reflexivity.
  - destruct (Qle_bool (fst y) (fst x)); eexists; reflexivity.
Qed.

(** The head of the sorted list is the first element of largest key. *)
Lemma sort_desc_head {A : Type} (l : list (Q * A)) (x : Q * A) (t : list (Q * A)) :
  sort_desc l = x :: t ->
  exists l1 l2, l = l1 ++ x :: l2
    /\ (forall y, In y l1 -> fst y < fst x)
    /\ (forall y, In y l2 -> fst y <= fst x).
Proof.
  revert x t. induction l as [|a l IH]; intros x t H.
  - discriminate.
  - simpl in H. destruct (sort_desc l) as [|y s] eqn:Es.
    + simpl in H. injection H as <- <-.
      destruct l as [|b l].
      * exists [], []. split; [reflexivity|]. split; intros y [].
      * simpl in Es. destruct (insert_desc_head b (sort_desc l)) as [t' Ht].
        rewrite Ht in Es. discriminate.
    + destruct (IH y s eq_refl) as [l1 [l2 [Hl [H1 H2]]]].
      simpl in H. destruct (Qle_bool (fst y) (fst a)) eqn:Ec.
      * injection H as <- <-. apply Qle_bool_iff in Ec.
        exists [], l. split; [reflexivity|]. split; [intros z []|].
        intros z Hz. rewrite Hl in Hz. apply in_app_or in Hz.
        destruct Hz as [Hz | [<- | Hz]].
        -- apply Qlt_le_weak. eapply Qlt_le_trans; [apply H1; exact Hz | exact Ec].
        -- exact Ec.
        -- eapply Qle_trans; [apply H2; exact Hz | exact Ec].
      * injection H as <- <-. apply Qle_bool_false_lt in Ec.
        exists (a :: l1), l2. split; [rewrite Hl; reflexivity|]. split.
        -- intros z [<- | Hz]; [exact Ec | apply H1; exact Hz].
        -- exact H2.
Qed.

Lemma sort_desc_nonempty {A : Type} (l : list (Q * A)) :
  l <> [] -> sort_desc l <> [].
Proof.
  destruct l as [|a l]; [congruence|]. intros _. simpl.
  destruct (insert_desc_head a (sort_desc l)) as [t Ht]. rewrite Ht. discriminate.
Qed.

Lemma candidates_nonempty (univ : list Bond) (safety : string) :
  univ <> [] -> candidates univ safety <> [].
Proof.
  intros H. unfold candidates.
  destruct (if String.eqb safety "safe" then _ else _) eqn:E; [exact H | discriminate].
Qed.

Lemma map_decompose {A B : Type} (f : A -> B) (l : list A) (l1 l2 : list B) (x : B) :
  map f l = l1 ++ x :: l2 ->
  exists k1 a k2, l = k1 ++ a :: k2 /\ map f k1 = l1 /\ f a = x /\ map f k2 = l2.
Proof.
  intros H. apply map_eq_app in H. destruct H as [k1 [k' [-> [H1 H2]]]].
  apply map_eq_cons in H2. destruct H2 as [a [k2 [-> [Ha H2]]]].
  exists k1, a, k2. repeat split; assumption.
Qed.

Lemma candidates_spec (univ : list Bond) (safety : string) (wl : list string) :
  (safety = "safe"%string /\ wl = ["AAA"; "AA"; "A"]%string)
  \/ (safety = "medium"%string /\ wl = ["AAA"; "AA"; "A"; "BBB"]%string) ->
  (filter (fun b => str_in (credit b) wl) univ <> [] ->
   candidates univ safety = filter (fun b => str_in (credit b) wl) univ)
  /\ (filter (fun b => str_in (credit b) wl) univ = [] -> candidates univ safety = univ).
Proof.
  intros [[-> ->] | [-> ->]]; unfold candidates; cbn [String.eqb Ascii.eqb Bool.eqb];
    (destruct (filter _ univ) as [|b df]; split; intros H;
     [congruence | reflexivity | reflexivity | discriminate]).
Qed.


Lemma fold_min_spec (r : list Q) (x : Q) :
  let m := fold_left (fun m v => if Qlt_bool v m then v else m) r x in
  m <= x /\ (forall v, In v r -> m <= v) /\ In m (x :: r).
Proof.
  revert x. induction r as [|y r IH]; intros x; cbn [fold_left].
  - split; [apply Qle_refl|]. split; [intros v [] | left; reflexivity].
  - destruct (IH (if Qlt_bool y x then y else x)) as [H1 [H2 H3]].
    destruct (Qlt_bool y x) eqn:E.
    + apply Qlt_bool_iff in E. split; [lra|]. split.
      * intros v [<- | Hv]; [exact H1 | apply H2; exact Hv].
      * right. exact H3.
    + assert (x <= y).
      { apply Qnot_lt_le. intros Hc. apply Qlt_bool_iff in Hc. congruence. }
      split; [exact H1|]. split.
      * intros v [<- | Hv]; [lra | apply H2; exact Hv].
      * destruct H3 as [H3 | H3]; [left; exact H3 | right; right; exact H3].
Qed.

Lemma fold_max_spec (r : list Q) (x : Q) :
  let m := fold_left (fun m v => if Qlt_bool m v then v else m) r x in
  x <= m /\ (forall v, In v r -> v <= m) /\ In m (x :: r).
Proof.
  revert x. induction r as [|y r IH]; intros x; cbn [fold_left].
  - split; [apply Qle_refl|]. split; [intros v [] | left; reflexivity].
  - destruct (IH (if Qlt_bool x y then y else x)) as [H1 [H2 H3]].
    destruct (Qlt_bool x y) eqn:E.
    + apply Qlt_bool_iff in E. split; [lra|]. split.
      * intros v [<- | Hv]; [exact H1 | apply H2; exact Hv].
      * right. exact H3.
    + assert (y <= x).
      { apply Qnot_lt_le. intros Hc. apply Qlt_bool_iff in Hc. congruence. }
      split; [exact H1|]. split.
      * intros v [<- | Hv]; [lra | apply H2; exact Hv].
      * destruct H3 as [H3 | H3]; [left; exact H3 | right; right; exact H3].
Qed.

(** [min] and [max] of a non-empty list of yields are yields of the list
    that bracket every yield of the list. *)
Lemma yield_bounds (df : list Bond) (y_min y_max : Q) :
  pymin (map yield df) = Ok y_min -> pymax (map yield df) = Ok y_max ->
  In y_min (map yield df) /\ In y_max (map yield df)
  /\ forall b, In b df -> y_min <= yield b <= y_max.
Proof.
  intros Hmin Hmax. destruct df as [|b0 df]; [discriminate|].
  cbn [map pymin pymax] in Hmin, Hmax. injection Hmin as <-. injection Hmax as <-.
  destruct (fold_min_spec (map yield df) (yield b0)) as [L1 [L2 L3]].
  destruct (fold_max_spec (map yield df) (yield b0)) as [U1 [U2 U3]].
  cbv zeta in L1, L2, L3, U1, U2, U3.
  split; [exact L3|]. split; [exact U3|].
  intros b [<- | Hb]; [split; assumption|].
  split; [apply L2 | apply U2]; apply in_map; exact Hb.
Qed.




(** ** Recommendations *)

Lemma str_in_safe (c : string) :
  str_in c ["AAA"; "AA"]%string = true <-> c = "AAA"%string \/ c = "AA"%string.
Proof.
  unfold str_in. cbn [existsb]. rewrite !orb_true_iff, !String.eqb_eq.
  intuition discriminate.
Qed.

Lemma better_nonempty (univ : list Bond) (rate : Q) :
  filter (fun b => Qle_bool rate (yield b))
         (filter (fun b => str_in (credit b) ["AAA"; "AA"]%string) univ) <> []
  <-> exists b, In b univ /\ (credit b = "AAA"%string \/ credit b = "AA"%string)
                /\ rate <= yield b.
Proof.
  split.
  - intros H. destruct (filter _ (filter _ univ)) as [|b l] eqn:E; [congruence|].
    assert (Hb : In b (b :: l)) by (left; reflexivity).
    rewrite <- E in Hb. apply filter_In in Hb. destruct Hb as [Hb Hy].
    apply filter_In in Hb. destruct Hb as [Hb Hc].
    exists b. split; [exact Hb|]. split; [apply str_in_safe; exact Hc|].
    apply Qle_bool_iff. exact Hy.
  - intros [b [Hb [Hc Hy]]] E.
    assert (Hin : In b (filter (fun b => Qle_bool rate (yield b))
                        (filter (fun b => str_in (credit b) ["AAA"; "AA"]%string) univ))).
    { apply filter_In. split; [apply filter_In; split; [exact Hb | apply str_in_safe; exact Hc]|].
      apply Qle_bool_iff. exact Hy. }
    rewrite E in Hin. destruct Hin.
Qed.

Lemma triggers_bank_fd (univ : list Bond) (a : Asset) (i : string) :
  type a = Some "bank_fd"%string -> asset_id a = Some i ->
  exists reason,
    triggers univ a = Ok [(i, get_float (market_value a), reason)]
    /\ (reason = "fd_replace"%string
        <-> exists b, In b univ /\ (credit b = "AAA"%string \/ credit b = "AA"%string)
                      /\ get_float (fd_rate a) <= yield b)
    /\ (reason = "fd_suggest_ladder"%string
        <-> ~ exists b, In b univ /\ (credit b = "AAA"%string \/ credit b = "AA"%string)
                        /\ get_float (fd_rate a) <= yield b).
Proof.
  intros Ht Hi. unfold triggers, asset_id_item. rewrite Ht, Hi.
  cbn [opt_str_eqb String.eqb Ascii.eqb Bool.eqb andb bind].
  pose proof (better_nonempty univ (get_float (fd_rate a))) as Hb.
  destruct (filter _ (filter _ univ)) as [|b l].
  - exists "fd_suggest_ladder"%string. cbn [bind app]. split; [reflexivity|]. split.
    + split; [discriminate|]. intros He. apply Hb in He. congruence.
    + split; [|reflexivity]. intros _ He. apply Hb in He. congruence.
  - exists "fd_replace"%string. cbn [bind app]. split; [reflexivity|]. split.
    + split; [|reflexivity]. intros _. apply Hb. discriminate.
    + split; [discriminate|]. intros Hn. exfalso. apply Hn, Hb. discriminate.
Qed.

Lemma to_replace_incl (univ : list Bond) (assets : list Asset)
      (entries : list (string * Q * string)) (a : Asset) :
  to_replace univ assets = Ok entries -> In a assets ->
  exists es, triggers univ a = Ok es /\ incl es entries.
Proof.
  revert entries. induction assets as [|x l IH]; intros entries H Ha; [destruct Ha|].
  simpl in H. bind_inv H. bind_inv H. injection H as <-.
  destruct Ha as [<- | Ha].
  - exists v. split; [exact E | apply incl_appl, incl_refl].
  - destruct (IH v0 E0 Ha) as [es [He Hi]].
    exists es. split; [exact He | apply incl_appr; exact Hi].
Qed.

Lemma find_asset_none (assets : list Asset) (i : string) (a : Asset) :
  find_asset assets i = Ok None -> In a assets -> asset_id a <> Some i.
Proof.
  induction assets as [|x l IH]; intros H Ha; [destruct Ha|].
  simpl in H. bind_inv H. unfold asset_id_item in E.
  destruct (asset_id x) as [xi|] eqn:Ex; [|discriminate]. injection E as <-.
  destruct (String.eqb xi i) eqn:Eq; [discriminate|].
  destruct Ha as [<- | Ha].
  - rewrite Ex. intros Hc. injection Hc as ->. rewrite String.eqb_refl in Eq. discriminate.
  - apply IH; assumption.
Qed.

Lemma build_one_some (assets : list Asset) (univ : list Bond)
      (e : string * Q * string) (r : Recommendation) :
  build_one assets univ e = Ok (Some r) ->
  (rec_asset_id r, replace_value r, reason r) = e.
Proof.
  destruct e as [[i v] rs]. unfold build_one. intros H.
  bind_inv H. destruct v0 as [asset|]; [|discriminate].
  destruct (String.eqb rs "stock_high");
    [bind_inv H; injection H as <-; reflexivity|].
  destruct (String.eqb rs "mf_lowcagr");
    [bind_inv H; injection H as <-; reflexivity|].
  destruct (String.eqb rs "fd_replace");
    [bind_inv H; injection H as <-; reflexivity|].
  destruct (String.eqb rs "fd_suggest_ladder"); [|discriminate].
  bind_inv H. destruct (find _ univ); [|discriminate].
  injection H as <-. reflexivity.
Qed.

Lemma build_one_none (assets : list Asset) (univ : list Bond)
      (e : string * Q * string) :
  build_one assets univ e = Ok None -> find_asset assets (fst (fst e)) = Ok None.
Proof.
  destruct e as [[i v] rs]. unfold build_one. intros H. cbn [fst].
  bind_inv H. destruct v0 as [asset|]; [|exact E].
  destruct (String.eqb rs "stock_high"); [bind_inv H; discriminate|].
  destruct (String.eqb rs "mf_lowcagr"); [bind_inv H; discriminate|].
  destruct (String.eqb rs "fd_replace"); [bind_inv H; discriminate|].
  destruct (String.eqb rs "fd_suggest_ladder"); [|discriminate].
  bind_inv H. destruct (find _ univ); discriminate.
Qed.

Lemma build_loop_keeps (assets : list Asset) (univ : list Bond)
      (entries : list (string * Q * string)) (recs0 recs : list Recommendation) :
  build_loop assets univ entries recs0 = Ok recs ->
  incl recs0 recs
  /\ forall e, In e entries ->
       find_asset assets (fst (fst e)) = Ok None
       \/ exists r, In r recs /\ (rec_asset_id r, replace_value r, reason r) = e.
Proof.
  revert recs0. induction entries as [|e l IH]; intros recs0 H.
  - simpl in H. injection H as <-. split; [apply incl_refl | intros e []].
  - simpl in H. bind_inv H. destruct (IH _ H) as [Hinc Hall].
    split.
    + destruct v; [|exact Hinc].
      intros x Hx. apply Hinc. apply in_or_app. left. exact Hx.
    + intros e' [<- | He'].
      * destruct v as [r|].
        -- right. exists r. split; [|apply (build_one_some _ _ _ _ E)].
           apply Hinc. apply in_or_app. right. left. reflexivity.
        -- left. apply (build_one_none _ _ _ E).
      * apply Hall. exact He'.
Qed.

Lemma triggers_bank_fd_id (univ : list Bond) (a : Asset)
      (es : list (string * Q * string)) :
  type a = Some "bank_fd"%string -> triggers univ a = Ok es ->
  exists i, asset_id a = Some i.
Proof.
  intros Ht H. destruct (asset_id a) as [i|] eqn:Ei; [exists i; reflexivity|].
  exfalso. unfold triggers, asset_id_item in H. rewrite Ht, Ei in H.
  cbn [opt_str_eqb String.eqb Ascii.eqb Bool.eqb andb bind] in H.
  destruct (filter _ (filter _ univ)); discriminate.
Qed.

(** C5: an asset of type [bank_fd] is given the reason [fd_replace] exactly
    when some bond of the universe rated AAA or AA yields at least the
    deposit rate, and [fd_suggest_ladder] otherwise: in the entry appended to
    [to_replace], and in the recommendation returned for it; with the demo
    universe and a deposit rate of 0.07 the reason is
    [fd_suggest_ladder]. *)
Theorem bank_fd_reason :
  (forall univ a i,
      type a = Some "bank_fd"%string -> asset_id a = Some i ->
      exists reason,
        triggers univ a = Ok [(i, get_float (market_value a), reason)]
        /\ (reason = "fd_replace"%string
            <-> exists b, In b univ /\ (credit b = "AAA"%string \/ credit b = "AA"%string)
                          /\ get_float (fd_rate a) <= yield b)
        /\ (reason = "fd_suggest_ladder"%string
            <-> ~ exists b, In b univ /\ (credit b = "AAA"%string \/ credit b = "AA"%string)
                            /\ get_float (fd_rate a) <= yield b))
  /\ (forall univ assets recs a,
         build_recommendations assets univ = Ok recs ->
         In a assets -> type a = Some "bank_fd"%string ->
         exists i r,
           asset_id a = Some i /\ In r recs
           /\ rec_asset_id r = i /\ replace_value r = get_float (market_value a)
           /\ (reason r = "fd_replace"%string
               <-> exists b, In b univ /\ (credit b = "AAA"%string \/ credit b = "AA"%string)
                             /\ get_float (fd_rate a) <= yield b)
           /\ (reason r = "fd_suggest_ladder"%string
               <-> ~ exists b, In b univ /\ (credit b = "AAA"%string \/ credit b = "AA"%string)
                               /\ get_float (fd_rate a) <= yield b))
  /\ (forall a i,
         type a = Some "bank_fd"%string -> asset_id a = Some i ->
         fd_rate a = Some (7 # 100) ->
         exists r, build_recommendations [a] BOND_UNIVERSE = Ok [r]
                   /\ reason r = "fd_suggest_ladder"%string).
Proof.
  split; [exact triggers_bank_fd|]. split.
  - intros univ assets recs a H Ha Ht.
    unfold build_recommendations in H. bind_inv H.
    destruct (to_replace_incl univ assets v a E Ha) as [es [He Hinc]].
    destruct (triggers_bank_fd_id univ a es Ht He) as [i Hi].
    destruct (triggers_bank_fd univ a i Ht Hi) as [rs [Hrs [H1 H2]]].
    rewrite Hrs in He. injection He as <-.
    destruct (build_loop_keeps assets univ v [] recs H) as [_ Hall].
    assert (Hin : In (i, get_float (market_value a), rs) v)
      by (apply Hinc; left; reflexivity).
    destruct (Hall _ Hin) as [Hnone | [r [Hr Heq]]].
    + exfalso. apply (find_asset_none assets i a Hnone Ha Hi).
    + injection Heq as Hri Hrv Hrr. exists i, r.
      rewrite Hrr. split; [exact Hi|]. split; [exact Hr|]. split; [exact Hri|].
      split; [exact Hrv|]. split; [exact H1 | exact H2].
  - intros a i Ht Hi Hr.
    destruct (triggers_bank_fd BOND_UNIVERSE a i Ht Hi) as [rs [Hrs [H1 H2]]].
    assert (Hl : rs = "fd_suggest_ladder"%string).
    { apply H2. intros [b [Hb [Hc Hy]]]. rewrite Hr in Hy. simpl in Hb.
      repeat (destruct Hb as [<- | Hb];
              [first [ vm_compute in Hy; apply Hy; reflexivity
                     | destruct Hc as [Hc | Hc]; discriminate Hc ]|]).
      destruct Hb. }
    subst rs. unfold build_recommendations. cbn [to_replace bind].
    rewrite Hrs. cbn [bind app build_loop build_one find_asset].
    unfold asset_id_item. rewrite Hi. cbn [bind]. rewrite String.eqb_refl.
    eexists. split; [vm_compute; reflexivity | reflexivity].
Qed.

Lemma bank_fd_reason_witness :
  exists r,
    build_recommendations
      [mkAsset (Some "FD_1"%string) (Some "bank_fd"%string) (Some "BankFD (7% p.a.)"%string)
               (Some "low"%string) (Some 20000) None (Some (7 # 100))]
      BOND_UNIVERSE = Ok [r]
    /\ reason r = "fd_suggest_ladder"%string.
Proof.
  apply (proj2 (proj2 bank_fd_reason) _ "FD_1"%string); reflexivity.
Defined.

End RecommendFacts.

(** * The risk scorer on floats *)

Module RiskFloatFacts.
Import PrimFloat RiskFloat.
Local Open Scope float_scope.
Local Set Warnings "-inexact-float".

(** C7: on floats the allocations can sum to more than one, and the score
    leaves the range 0-100 that the docstring of [compute_portfolio_risk]
    gives: two high-risk stocks worth 1.1 and 3 get the allocations
    0.26829268292682934 and 0.73170731707317083, which sum to
    1.0000000000000002, and the score 100.00000000000003. *)
Theorem float_score_above_hundred :
  let assets :=
    [ mkAsset (Some "A"%string) (Some "stock"%string) (Some "high"%string) (Some 1.1);
      mkAsset (Some "B"%string) (Some "stock"%string) (Some "high"%string) (Some 3) ] in
  exists score bd tv,
    compute_portfolio_risk assets = Ok (score, bd, tv)
    /\ score = 100.00000000000003
    /\ ltb 100 score = true
    /\ map alloc_pct bd = [0.26829268292682934; 0.73170731707317083]
    /\ map risk_score_raw bd = [1; 1]
    /\ pysum (map alloc_pct bd) = 1.0000000000000002.
Proof.
  eexists. eexists. eexists. split; [vm_compute; reflexivity|].
  repeat split; vm_compute; reflexivity.
Qed.

End RiskFloatFacts.

(** * Further properties of the pricing service *)

Module PricingExtras.
Import Pricing PricingFacts.

Lemma pyrange_cons (lo : Z) (k : nat) :
  exists t, pyrange lo (S k) = (lo + 0)%Z :: t.
Proof.
  unfold pyrange. cbn [seq map]. eexists. reflexivity.
Qed.

(** ** Errors of [pv_price] *)

(** X1: [pv_price] raises [ZeroDivisionError] at a yield of [-1] with at
    least one period; it raises nothing but [ZeroDivisionError] and
    [OverflowError]; it returns for every non-negative yield whose largest
    discount factor [(1 + y) ^ n] is at most 2^1023; and whatever it returns
    is the sum of the discounted coupons, accumulated in the order of [sum],
    plus the discounted principal. *)
Theorem pv_price_errors (F c y years : Q) :
  (1 + y == 0 -> (1 <= Qceiling years)%Z ->
   pv_price F c y years = Raise ZeroDivisionError)
  /\ (forall e, pv_price F c y years = Raise e ->
                e = ZeroDivisionError \/ e = OverflowError)
  /\ (0 <= y -> (1 + y) ^ Z.max (Qceiling years) 0 <= inject_Z (2 ^ 1023) ->
      pv_price F c y years = Ok (pv_value F c y years))
  /\ (forall v, pv_price F c y years = Ok v -> v = pv_value F c y years).
Proof.
  split; [|split; [|split]].
  - intros Hy Hn. unfold pv_price. cbv zeta.
    replace (Z.max (Qceiling years) 0) with (Qceiling years) by lia.
    destruct (Qceiling years =? 0)%Z eqn:E0; [apply Z.eqb_eq in E0; lia|].
    destruct (Z.to_nat (Qceiling years)) as [|k] eqn:Ek; [lia|].
    destruct (pyrange_cons 1 k) as [t ->]. cbn [map pysum_gen Z.add].
    assert (Hp : (1 + y) ^ 1 == 0) by (rewrite Qpower_1_r; exact Hy).
    unfold pypow at 1. cbv zeta.
    assert (Ha : Qabs ((1 + y) ^ 1) == 0) by (rewrite Hp; reflexivity).
    assert (E1 : Qle_bool float_huge (Qabs ((1 + y) ^ 1)) = false).
    { destruct (Qle_bool float_huge (Qabs ((1 + y) ^ 1))) eqn:E1; [|reflexivity].
      apply Qle_bool_iff in E1. rewrite Ha in E1.
      exfalso. revert E1. apply Qlt_not_le. reflexivity. }
    assert (E2 : Qle_bool (Qabs ((1 + y) ^ 1)) float_tiny = true).
    { apply Qle_bool_iff. rewrite Ha. apply Qlt_le_weak, float_tiny_pos. }
    rewrite E1, E2. reflexivity.
  - apply pv_price_errors_only.
  - intros Hy Hr. apply pv_price_ok; [exact Hy|].
    eapply Qle_lt_trans; [exact Hr | exact float_big_lt_huge].
  - apply pv_price_inv.
Qed.

Lemma pv_price_errors_witness :
  pv_price 1000 (5 # 100) (-1) 3 = Raise ZeroDivisionError.
Proof.
  apply (proj1 (pv_price_errors 1000 (5 # 100) (-1) 3)).
  - reflexivity.
  - vm_compute. discriminate.
Defined.

(** ** The yield solver stays inside its search interval *)

Lemma bisect_in_bracket (F c price years eps : Q) (k : nat) (a b fa fb m : Q) :
  a <= b -> bisect F c price years eps k a b fa fb = Ok m -> a <= m <= b.
Proof.
  revert a b fa fb. induction k as [|k IH]; intros a b fa fb Hab H.
  - cbn [bisect] in H. injection H as <-. lra.
  - cbn [bisect] in H. bind_inv H.
    destruct (Qlt_bool _ eps) in H.
    + injection H as <-. lra.
    + destruct (nonpositive_product _ _) in H; apply IH in H; lra.
Qed.

Lemma solver_lower_bound
      (F c price years lo hi eps : Q) (max_iter : nat) (m : Q) :
  lo <= hi -> lo <= 10 ->
  implied_yield_for_price F c price years lo hi eps max_iter = Ok (Some m) ->
  lo <= m.
Proof.
  intros Hhi H10 H. unfold implied_yield_for_price in H.
  bind_inv H. bind_inv H.
  destruct (positive_product _ _) in H.
  - bind_inv H. destruct (positive_product _ _) in H; [discriminate|].
    bind_inv H. injection H as <-.
    match goal with
    | Hb : bisect _ _ _ _ _ _ _ _ _ _ = Ok _ |- _ =>
        apply bisect_in_bracket in Hb; [lra | exact H10]
    end.
  - bind_inv H. injection H as <-.
    match goal with
    | Hb : bisect _ _ _ _ _ _ _ _ _ _ = Ok _ |- _ =>
        apply bisect_in_bracket in Hb; [lra | exact Hhi]
    end.
Qed.

(** X5: a yield returned by the solver lies in the search interval: between
    [lo] and [hi], or between [lo] and 10 after the widening. *)
Theorem implied_yield_in_interval
        (F c price years lo hi eps : Q) (max_iter : nat) (m : Q) :
  -1 < lo -> lo <= hi -> lo <= 10 ->
  implied_yield_for_price F c price years lo hi eps max_iter = Ok (Some m) ->
  lo <= m /\ m <= Qmax hi 10.
Proof.
  intros Hlo Hhi H10 H. unfold implied_yield_for_price in H.
  bind_inv H. bind_inv H.
  pose proof (Q.le_max_l hi 10) as M1. pose proof (Q.le_max_r hi 10) as M2.
  destruct (positive_product _ _) in H.
  - bind_inv H. destruct (positive_product _ _) in H; [discriminate|].
    bind_inv H. injection H as <-.
    match goal with
    | Hb : bisect _ _ _ _ _ _ _ _ _ _ = Ok _ |- _ =>
        apply bisect_in_bracket in Hb; [lra | exact H10]
    end.
  - bind_inv H. injection H as <-.
    match goal with
    | Hb : bisect _ _ _ _ _ _ _ _ _ _ = Ok _ |- _ =>
        apply bisect_in_bracket in Hb; [lra | exact Hhi]
    end.
Qed.

Lemma implied_yield_in_interval_witness :
  exists m,
    implied_yield_for_price 1000 (5 # 100) 1000 1
      default_lo default_hi default_eps 3 = Ok (Some m)
    /\ default_lo <= m /\ m <= Qmax default_hi 10.
Proof.
  eexists. split; [vm_compute; reflexivity|].
  apply (implied_yield_in_interval 1000 (5 # 100) 1000 1
           default_lo default_hi default_eps 3);
    vm_compute; first [reflexivity | discriminate].
Defined.

(** X6: in the force-seller mode of a high-rated bond the reported yields
    are null exactly when the solver found no bracket: a yield the solver
    returns is at least [lo > 0], hence truthy. *)
Theorem force_seller_null_iff_unsolved
        (F c : Q) (rating : string) (m : Q) (fr : Z) (uf : bool) (r : PricingResult) :
  str_in rating HIGH_RATED = true ->
  calculate_fraction_price F c rating m fr uf true = Ok r ->
  exists implied,
    implied_yield_for_price F c
      (F * (1 + c) * ((95 # 100) + (7 # 100) * (Qmin (Qmax m 0) 5 / 5))) m
      default_lo default_hi default_eps default_max_iter = Ok implied
    /\ (used_yield r = None <-> implied = None)
    /\ (buyer_expected_yield_pct r = None <-> implied = None)
    /\ (forall i, implied = Some i ->
        used_yield r = Some (pyround i 6)
        /\ buyer_expected_yield_pct r = Some (pyround (i * 100) 2)).
Proof.
  intros Hh H. unfold calculate_fraction_price in H.
  bind_inv H. bind_inv H. bind_inv H. bind_inv H. injection H as <-.
  cbn [used_yield buyer_expected_yield_pct].
  unfold dispatch in E. bind_inv E. rewrite Hh in E.
  replace (uf && negb true) with false in E by (destruct uf; reflexivity).
  bind_inv E. bind_inv E. injection E as <-. cbn [l_Y l_buyer_yield].
  exists v5. split; [exact E5|].
  destruct v5 as [i|]; cbn [truthy_opt option_map].
  - assert (Hi : default_lo <= i).
    { assert (A2 : default_lo <= default_hi) by (vm_compute; discriminate).
      assert (A3 : default_lo <= 10) by (vm_compute; discriminate).
      apply (solver_lower_bound _ _ _ _ _ _ _ _ _ A2 A3 E5). }
    assert (Hlo : 0 < default_lo) by reflexivity.
    assert (T1 : truthy i = true).
    { unfold truthy. destruct (Qeq_bool i 0) eqn:Eq; [|reflexivity].
      apply Qeq_bool_iff in Eq. lra. }
    assert (T2 : truthy (i * 100) = true).
    { unfold truthy. destruct (Qeq_bool (i * 100) 0) eqn:Eq; [|reflexivity].
      apply Qeq_bool_iff in Eq. lra. }
    rewrite T1, T2.
    split; [split; discriminate|]. split; [split; discriminate|].
    intros i' Hi'. injection Hi' as <-. split; reflexivity.
  - split; [split; reflexivity|]. split; [split; reflexivity|].
    intros i Hi. discriminate.
Qed.

Lemma force_seller_null_iff_unsolved_witness :
  exists r,
    calculate_fraction_price 1000 (8 # 100) "AAA" 0 100 true true = Ok r
    /\ used_yield r = None.
Proof.
  eexists. split; [vm_compute; reflexivity|].
  edestruct (force_seller_null_iff_unsolved 1000 (8 # 100) "AAA" 0 100 true)
    as [implied [Hi [Hu _]]].
  - reflexivity.
  - vm_compute. reflexivity.
  - apply Hu. vm_compute in Hi. injection Hi as <-. reflexivity.
Defined.

(** ** The target yield *)

(** X7: the target yield of the forward-PV mode concedes at most one
    percentage point: it lies between [c - 0.01] and [c], equals [c] for a
    maturity of zero or less and [c - 0.01] from five years on, and never
    rises with the maturity. *)
Theorem target_yield_concession (c t : Q) :
  c - (1 # 100) <= target_yield_for_time c t <= c
  /\ (t <= 0 -> target_yield_for_time c t == c)
  /\ (5 <= t -> target_yield_for_time c t == c - (1 # 100))
  /\ (forall t', t <= t' -> target_yield_for_time c t' <= target_yield_for_time c t).
Proof.
  unfold target_yield_for_time.
  assert (Hcap : forall s, 0 <= Qmin (Qmax s 0) 5 <= 5).
  { intros s. split.
    - apply Q.min_glb; [apply Q.le_max_r | lra].
    - apply Q.le_min_r. }
  assert (E5 : forall x, x / 5 == x * (1 # 5)) by (intros x; field).
  split; [|split; [|split]].
  - destruct (Hcap t). rewrite E5. split; lra.
  - intros Ht. rewrite (Q.max_r t 0) by exact Ht.
    rewrite (Q.min_l 0 5) by lra. rewrite E5. ring.
  - intros Ht. rewrite (Q.min_r (Qmax t 0) 5).
    + field.
    + eapply Qle_trans; [exact Ht | apply Q.le_max_l].
  - intros t' Htt.
    assert (Hm : Qmin (Qmax t 0) 5 <= Qmin (Qmax t' 0) 5).
    { apply Q.min_le_compat_r. apply Q.max_le_compat_r. exact Htt. }
    rewrite !E5. lra.
Qed.

Lemma target_yield_concession_witness :
  target_yield_for_time (8 # 100) 7 == (8 # 100) - (1 # 100).
Proof.
  apply (proj1 (proj2 (proj2 (target_yield_concession (8 # 100) 7)))).
  vm_compute. discriminate.
Defined.

(** ** Rounding *)

Lemma round_half_even_cases (x : Q) :
  let z := Qfloor x in
  (x - inject_Z z < 1 # 2 /\ round_half_even x = z)
  \/ (x - inject_Z z == 1 # 2 /\ (round_half_even x = z \/ round_half_even x = (z + 1)%Z))
  \/ (1 # 2 < x - inject_Z z /\ round_half_even x = (z + 1)%Z).
Proof.
  intros z. unfold round_half_even. fold z.
  destruct (Qcompare (x - inject_Z z) (1 # 2)) eqn:E.
  - right. left. split; [apply Qeq_alt; exact E|].
    destruct (Z.even z); [left | right]; reflexivity.
  - left. split; [apply Qlt_alt; exact E | reflexivity].
  - right. right. split; [apply Qgt_alt; exact E | reflexivity].
Qed.

Lemma round_half_even_comp (x y : Q) : x == y -> round_half_even x = round_half_even y.
Proof.
  intros H. unfold round_half_even.
  rewrite (Qfloor_comp x y H).
  assert (E : x - inject_Z (Qfloor y) == y - inject_Z (Qfloor y)) by (rewrite H; reflexivity).
  rewrite (Qcompare_comp _ _ E (1 # 2) (1 # 2) (Qeq_refl _)). reflexivity.
Qed.

Lemma round_half_even_mono (x y : Q) : x <= y -> (round_half_even x <= round_half_even y)%Z.
Proof.
  intros H.
  destruct (Qeq_dec x y) as [Heq | Hne];
    [rewrite (round_half_even_comp x y Heq); lia|].
  assert (Hlt' : x < y) by (apply Qle_lteq in H; destruct H; [assumption | contradiction]).
  pose proof (Qfloor_resp_le x y H) as Hf.
  pose proof (round_half_even_cases x) as Cx.
  pose proof (round_half_even_cases y) as Cy. cbv zeta in Cx, Cy.
  destruct (Z.eq_dec (Qfloor x) (Qfloor y)) as [Ez | Nz].
  - rewrite Ez in Cx.
    destruct Cx as [[Hx ->] | [[Hx [-> | ->]] | [Hx ->]]];
      destruct Cy as [[Hy ->] | [[Hy [-> | ->]] | [Hy ->]]]; try lia; exfalso; lra.
  - assert (Hlt : (Qfloor x + 1 <= Qfloor y)%Z) by lia.
    destruct Cx as [[Hx ->] | [[Hx [-> | ->]] | [Hx ->]]];
      destruct Cy as [[Hy ->] | [[Hy [-> | ->]] | [Hy ->]]]; lia.
Qed.

Lemma pow10_pos (d : nat) : 0 < pow10 d.
Proof.
  unfold pow10. rewrite <- (Zlt_Qlt 0). apply Z.pow_pos_nonneg; lia.
Qed.

Lemma pyround_comp (x y : Q) (d : nat) : x == y -> pyround x d = pyround y d.
Proof.
  intros H. unfold pyround.
  rewrite (round_half_even_comp (x * pow10 d) (y * pow10 d)); [reflexivity|].
  rewrite H. reflexivity.
Qed.

Lemma pyround_mono (x y : Q) (d : nat) : x <= y -> pyround x d <= pyround y d.
Proof.
  intros H. unfold pyround. pose proof (pow10_pos d) as Hp.
  apply Qle_shift_div_l; [exact Hp|].
  assert (E : inject_Z (round_half_even (x * pow10 d)) / pow10 d * pow10 d
              == inject_Z (round_half_even (x * pow10 d))) by (field; lra).
  rewrite E. rewrite <- Zle_Qle. apply round_half_even_mono. nra.
Qed.

(** ** Errors of [calculate_fraction_price] *)

Lemma proj_returns (F c m bc years : Q) : exists p, proj F c m bc years = Ok p.
Proof.
  unfold proj. destruct (truthy bc) eqn:E.
  - rewrite pydiv_ok by (apply truthy_true; exact E). cbn [bind]. eexists. reflexivity.
  - cbn [bind]. eexists. reflexivity.
Qed.

Lemma calculate_after_dispatch
      (F c : Q) (rating : string) (m : Q) (fr : Z) (uf fs : bool) :
  (forall l, dispatch F c rating m fr uf fs = Ok l ->
             exists r, calculate_fraction_price F c rating m fr uf fs = Ok r)
  /\ (forall e, dispatch F c rating m fr uf fs = Raise e ->
                calculate_fraction_price F c rating m fr uf fs = Raise e).
Proof.
  unfold calculate_fraction_price. split.
  - intros l ->. cbn [bind].
    destruct (proj_returns F c m (l_buyer_cost l) 1) as [p1 ->].
    destruct (proj_returns F c m (l_buyer_cost l) 3) as [p3 ->].
    destruct (proj_returns F c m (l_buyer_cost l) 5) as [p5 ->].
    cbn [bind]. eexists. reflexivity.
  - intros e ->. reflexivity.
Qed.

(** X9: with zero fractions the function raises [ZeroDivisionError] for
    every rating and mode; with a non-zero number of fractions an
    unclassified rating always returns, and a low-rated bond raises
    [ZeroDivisionError] exactly when its rounded per-fraction price is
    zero. *)
Theorem fraction_price_errors (F c : Q) (rating : string) (m : Q) (uf fs : bool) :
  calculate_fraction_price F c rating m 0 uf fs = Raise ZeroDivisionError
  /\ forall fr,
      fr <> 0%Z -> str_in rating HIGH_RATED = false ->
      (str_in rating LOW_RATED = false ->
       exists r, calculate_fraction_price F c rating m fr uf fs = Ok r)
      /\ (str_in rating LOW_RATED = true ->
          (pyround (F * (1 + c * (75 # 100)) / inject_Z fr) 2 == 0 ->
           calculate_fraction_price F c rating m fr uf fs = Raise ZeroDivisionError)
          /\ (~ pyround (F * (1 + c * (75 # 100)) / inject_Z fr) 2 == 0 ->
              exists r, calculate_fraction_price F c rating m fr uf fs = Ok r)).
Proof.
  split; [reflexivity|].
  intros fr Hfr Hh.
  assert (Hq : ~ inject_Z fr == 0).
  { intros E. apply Hfr. rewrite <- (Qfloor_Z fr), <- (Qfloor_Z 0).
    apply Qfloor_comp. exact E. }
  destruct (calculate_after_dispatch F c rating m fr uf fs) as [Hok Herr].
  split.
  - intros Hl. unfold dispatch in Hok. rewrite pydiv_ok, Hh, Hl in Hok by exact Hq.
    eapply Hok. reflexivity.
  - intros Hl. split.
    + intros Hz. apply Herr. unfold dispatch.
      rewrite !pydiv_ok, Hh, Hl by exact Hq. cbn [bind].
      unfold pydiv.
      assert (Hb : pyround (F * (1 + c * (75 # 100)) / inject_Z fr) 2 * inject_Z fr == 0)
        by (rewrite Hz; ring).
      apply Qeq_bool_iff in Hb. rewrite Hb. reflexivity.
    + intros Hz. unfold dispatch in Hok.
      rewrite !pydiv_ok, Hh, Hl in Hok by exact Hq. cbn [bind] in Hok.
      rewrite pydiv_ok in Hok; [eapply Hok; reflexivity|].
      intros Hb. apply Qmult_integral in Hb. destruct Hb; contradiction.
Qed.

Lemma fraction_price_errors_witness :
  calculate_fraction_price 0 (8 # 100) "CCC" 3 100 true false = Raise ZeroDivisionError.
Proof.
  apply (proj2 (fraction_price_errors 0 (8 # 100) "CCC" 3 true false) 100%Z);
    first [discriminate | reflexivity].
Defined.

(** ** Interest projections *)

Lemma proj_value (F c m bc years : Q) (p : Projection) :
  proj F c m bc years = Ok p ->
  p = mkProjection
        (pyround (c * F * Qmin years (Qmax m 0)) 2)
        (if truthy bc then pyround (c * F * Qmin years (Qmax m 0) / bc * 100) 2 else 0).
Proof.
  unfold proj. destruct (truthy bc) eqn:E.
  - rewrite pydiv_ok by (apply truthy_true; exact E). cbn [bind].
    intros H. injection H as <-. reflexivity.
  - cbn [bind]. intros H. injection H as <-. reflexivity.
Qed.

Lemma proj_same_holding (F c m bc h1 h2 : Q) (p1 p2 : Projection) :
  Qmin h1 (Qmax m 0) == Qmin h2 (Qmax m 0) ->
  proj F c m bc h1 = Ok p1 -> proj F c m bc h2 = Ok p2 -> p1 = p2.
Proof.
  intros Hh H1 H2. apply proj_value in H1, H2. subst p1 p2.
  rewrite (pyround_comp (c * F * Qmin h1 (Qmax m 0)) (c * F * Qmin h2 (Qmax m 0)) 2)
    by (rewrite Hh; reflexivity).
  destruct (truthy bc); [|reflexivity].
  rewrite (pyround_comp (c * F * Qmin h1 (Qmax m 0) / bc * 100)
                        (c * F * Qmin h2 (Qmax m 0) / bc * 100) 2)
    by (rewrite Hh; reflexivity).
  reflexivity.
Qed.

Lemma holding_capped (m h : Q) : m <= h -> 0 <= h -> Qmin h (Qmax m 0) == Qmax m 0.
Proof.
  intros H1 H2. apply Q.min_r. apply Q.max_lub; assumption.
Qed.

(** X10: interest stops at maturity: the projection of a horizon at or
    beyond the maturity equals that of the maturity, a maturity of zero or
    less projects no interest, and with a non-negative coupon a longer
    horizon never projects less interest. *)
Theorem projections_stop_at_maturity
        (F c : Q) (rating : string) (m : Q) (fr : Z) (uf fs : bool) (r : PricingResult) :
  calculate_fraction_price F c rating m fr uf fs = Ok r ->
  exists p1 p3 p5,
    buyer_interest_projection r
    = [("1_year", p1); ("3_year", p3); ("5_year", p5)]%string
    /\ (m <= 3 -> p5 = p3)
    /\ (m <= 1 -> p3 = p1 /\ p5 = p1)
    /\ (m <= 0 -> absolute_interest p1 == 0 /\ return_pct_of_cost p1 == 0)
    /\ (0 <= c * F ->
        absolute_interest p1 <= absolute_interest p3
        /\ absolute_interest p3 <= absolute_interest p5).
Proof.
  intros H. unfold calculate_fraction_price in H.
  bind_inv H. bind_inv H. bind_inv H. bind_inv H. injection H as <-.
  cbn [buyer_interest_projection].
  exists v0, v1, v2. split; [reflexivity|].
  set (bc := l_buyer_cost v) in *.
  split; [|split; [|split]].
  - intros Hm. apply (proj_same_holding F c m bc 5 3); try assumption.
    rewrite !holding_capped by lra. reflexivity.
  - intros Hm. split.
    + apply (proj_same_holding F c m bc 3 1); try assumption.
      rewrite !holding_capped by lra. reflexivity.
    + apply (proj_same_holding F c m bc 5 1); try assumption.
      rewrite !holding_capped by lra. reflexivity.
  - intros Hm. apply proj_value in E0. subst v0.
    cbn [absolute_interest return_pct_of_cost].
    assert (Hh : Qmin 1 (Qmax m 0) == 0).
    { rewrite holding_capped by lra. apply Q.max_r. exact Hm. }
    split.
    + rewrite (pyround_comp _ 0 2) by (rewrite Hh; ring). reflexivity.
    + destruct (truthy bc) eqn:Et; [|reflexivity].
      rewrite (pyround_comp _ 0 2); [reflexivity|].
      rewrite Hh. field. apply truthy_true. exact Et.
  - intros Hc. apply proj_value in E0, E1, E2. subst v0 v1 v2.
    cbn [absolute_interest].
    assert (H13 : Qmin 1 (Qmax m 0) <= Qmin 3 (Qmax m 0))
      by (apply Q.min_le_compat_r; lra).
    assert (H35 : Qmin 3 (Qmax m 0) <= Qmin 5 (Qmax m 0))
      by (apply Q.min_le_compat_r; lra).
    split; apply pyround_mono; nra.
Qed.

Lemma projections_stop_at_maturity_witness :
  exists r,
    calculate_fraction_price 1000 (8 # 100) "AAA" 3 100 true false = Ok r
    /\ exists p1 p3 p5,
        buyer_interest_projection r
        = [("1_year", p1); ("3_year", p3); ("5_year", p5)]%string
        /\ p5 = p3.
Proof.
  eexists. split; [vm_compute; reflexivity|].
  edestruct (projections_stop_at_maturity 1000 (8 # 100) "AAA" 3 100 true false)
    as [p1 [p3 [p5 [Hl [H53 _]]]]].
  - vm_compute. reflexivity.
  - exists p1, p3, p5. split; [exact Hl|]. apply H53. vm_compute. discriminate.
Defined.


End PricingExtras.

(** * Further properties of the recommendation service *)

Module RecommendExtras.
Import Recommend PricingFacts PricingExtras RecommendFacts.

(** ** The risk scorer on arbitrary market values *)

Lemma total_value_nonzero (s : Q) : ~ (if truthy s then s else 1) == 0.
Proof.
  destruct (truthy s) eqn:E; [apply truthy_true; exact E|].
  intros H. vm_compute in H. discriminate.
Qed.




(** X12: no asset is scored below 0.05: a bank deposit scores exactly 0.05
    whatever its label, a stock at least 0.3, and every other asset at
    least 0.2. *)
Theorem risk_score_floor (a : Asset) :
  (5 # 100) <= get_asset_risk_score a <= 1
  /\ (type a = Some "bank_fd"%string -> get_asset_risk_score a = 5 # 100)
  /\ (type a = Some "stock"%string -> (3 # 10) <= get_asset_risk_score a)
  /\ (type a <> Some "bank_fd"%string -> (2 # 10) <= get_asset_risk_score a).
Proof.
  unfold get_asset_risk_score.
  assert (Hb : (2 # 10) <= dict_get RISK_MAP (risk_label a) (5 # 10) <= 9 # 10
               \/ dict_get RISK_MAP (risk_label a) (5 # 10) = 1).
  { destruct (risk_label a) as [s|]; simpl.
    - destruct (String.eqb s "high"); [right; reflexivity|].
      destruct (String.eqb s "medium-high"); [left; lra|].
      destruct (String.eqb s "medium"); [left; lra|].
      destruct (String.eqb s "low"); left; lra.
    - left. lra. }
  set (base := dict_get RISK_MAP (risk_label a) (5 # 10)) in *.
  assert (Hmin : (3 # 10) <= Qmin 1 (base + (1 # 10)) <= 1).
  { destruct (Q.min_spec 1 (base + (1 # 10))) as [[? ->] | [? ->]];
      destruct Hb as [Hb | ->]; lra. }
  destruct (type a) as [t|]; cbn [String.eqb].
  - destruct (String.eqb t "bank_fd") eqn:Ef.
    + apply String.eqb_eq in Ef. subst t. cbn [String.eqb Ascii.eqb Bool.eqb].
      split; [lra|]. split; [reflexivity|]. split; [discriminate|].
      intros H. contradiction.
    + destruct (String.eqb t "stock") eqn:Es.
      * split; [lra|]. split; [|split; intros; lra].
        intros H. injection H as ->. discriminate.
      * split; [destruct Hb as [Hb | ->]; lra|].
        split; [intros H; injection H as ->; discriminate|].
        split; [intros H; injection H as ->; discriminate|].
        intros _. destruct Hb as [Hb | ->]; lra.
  - cbn [String.eqb Ascii.eqb Bool.eqb]. split; [destruct Hb as [Hb | ->]; lra|].
    split; [discriminate|]. split; [discriminate|].
    intros _. destruct Hb as [Hb | ->]; lra.
Qed.

Lemma risk_score_floor_witness :
  get_asset_risk_score
    (mkAsset None (Some "bank_fd"%string) None (Some "high"%string) None None None)
  = 5 # 100.
Proof.
  apply (proj1 (proj2 (risk_score_floor _))). reflexivity.
Defined.

(** ** Bond selection: errors, membership, normalisation *)

Lemma candidates_incl (univ : list Bond) (safety : string) (b : Bond) :
  In b (candidates univ safety) -> In b univ.
Proof.
  unfold candidates.
  destruct (String.eqb safety "safe");
    [|destruct (String.eqb safety "medium")];
    try (destruct (filter _ univ) as [|x l] eqn:E; [tauto|];
         intros H; rewrite <- E in H; apply filter_In in H; tauto).
  destruct univ; tauto.
Qed.

Lemma select_in_candidates (univ : list Bond) (safety : string) (prefer : bool) (target : Q) :
  univ <> [] ->
  exists b, select_bond_candidate univ safety prefer target = Ok b
            /\ In b (candidates univ safety).
Proof.
  intros Hne. pose proof (candidates_nonempty univ safety Hne) as Hc.
  unfold select_bond_candidate.
  destruct (candidates univ safety) as [|b0 df] eqn:Edf; [congruence|].
  cbn [map pymin pymax bind].
  set (y_min := fold_left _ (map yield df) (yield b0)).
  set (y_max := fold_left _ (map yield df) (yield b0)).
  destruct (sort_desc ((utility prefer target y_min y_max b0, b0)
              :: map (fun b => (utility prefer target y_min y_max b, b)) df))
    as [|top rest] eqn:Es.
  - exfalso. revert Es. apply sort_desc_nonempty. discriminate.
  - destruct (sort_desc_head _ _ _ Es) as [s1 [s2 [Hs _]]].
    change ((utility prefer target y_min y_max b0, b0)
              :: map (fun b => (utility prefer target y_min y_max b, b)) df)
      with (map (fun b => (utility prefer target y_min y_max b, b)) (b0 :: df)) in Hs.
    apply map_decompose in Hs. destruct Hs as [k1 [b [k2 [Hk [_ [<- _]]]]]].
    exists b. split; [reflexivity|]. rewrite Hk. apply in_or_app. right. left. reflexivity.
Qed.

(** X14: the selector raises [ValueError] exactly on an empty universe;
    otherwise it returns a bond of the universe, and for the safety levels
    [safe] and [medium] a bond of the credit whitelist whenever the universe
    has one. *)
Theorem select_bond_candidate_membership
        (univ : list Bond) (safety : string) (prefer : bool) (target : Q) :
  (select_bond_candidate univ safety prefer target = Raise ValueError <-> univ = [])
  /\ (univ <> [] ->
      exists b,
        select_bond_candidate univ safety prefer target = Ok b
        /\ In b univ
        /\ forall wl,
            (safety = "safe"%string /\ wl = ["AAA"; "AA"; "A"]%string)
            \/ (safety = "medium"%string /\ wl = ["AAA"; "AA"; "A"; "BBB"]%string) ->
            (exists b', In b' univ /\ str_in (credit b') wl = true) ->
            str_in (credit b) wl = true).
Proof.
  assert (Hsome : univ <> [] ->
      exists b,
        select_bond_candidate univ safety prefer target = Ok b
        /\ In b univ
        /\ forall wl,
            (safety = "safe"%string /\ wl = ["AAA"; "AA"; "A"]%string)
            \/ (safety = "medium"%string /\ wl = ["AAA"; "AA"; "A"; "BBB"]%string) ->
            (exists b', In b' univ /\ str_in (credit b') wl = true) ->
            str_in (credit b) wl = true).
  { intros Hne.
    destruct (select_in_candidates univ safety prefer target Hne) as [b [Hs Hb]].
    exists b. split; [exact Hs|]. split; [apply (candidates_incl _ _ _ Hb)|].
    intros wl Hwl [b' [Hb' Hc']].
    destruct (candidates_spec univ safety wl Hwl) as [Hf _].
    assert (Hin : In b' (filter (fun b => str_in (credit b) wl) univ))
      by (apply filter_In; split; assumption).
    rewrite Hf in Hb by (intros E; rewrite E in Hin; destruct Hin).
    apply filter_In in Hb. apply Hb. }
  split; [|exact Hsome]. split.
  - intros H. destruct univ as [|b0 l]; [reflexivity|].
    destruct Hsome as [b [Hs _]]; [discriminate|]. rewrite Hs in H. discriminate.
  - intros ->. unfold select_bond_candidate, candidates. cbn [filter].
    destruct (String.eqb safety "safe"); [reflexivity|].
    destruct (String.eqb safety "medium"); reflexivity.
Qed.

Lemma select_bond_candidate_membership_witness :
  exists b, select_bond_candidate BOND_UNIVERSE "medium" false 3 = Ok b
            /\ In b BOND_UNIVERSE
            /\ str_in (credit b) ["AAA"; "AA"; "A"; "BBB"]%string = true.
Proof.
  destruct (proj2 (select_bond_candidate_membership BOND_UNIVERSE "medium" false 3))
    as [b [Hs [Hin Hwl]]]; [discriminate|].
  exists b. split; [exact Hs|]. split; [exact Hin|].
  apply Hwl; [right; split; reflexivity|].
  exists (mkBond "B_SAFE_1" "Gilt 3Y" "AAA" (55 # 1000) 3 (Some (95 # 100))).
  split; [left; reflexivity | reflexivity].
Defined.

(** X15: the yield normalisation never divides by zero and stays in
    [[0, 1]]: for every candidate the minimum and maximum yields bracket
    its yield and the divisor is positive. *)
Theorem norm_yield_in_unit_interval (df : list Bond) (y_min y_max : Q) (b : Bond) :
  pymin (map yield df) = Ok y_min -> pymax (map yield df) = Ok y_max -> In b df ->
  y_min <= yield b <= y_max
  /\ 0 < (y_max - y_min) + (1 # 1000000000)
  /\ 0 <= (yield b - y_min) / ((y_max - y_min) + (1 # 1000000000)) <= 1.
Proof.
  intros Hmin Hmax Hb.
  destruct (yield_bounds df y_min y_max Hmin Hmax) as [_ [_ Hall]].
  pose proof (Hall b Hb) as Hy.
  split; [exact Hy|]. assert (Hd : 0 < y_max - y_min + (1 # 1000000000)) by lra.
  split; [exact Hd|]. split.
  - apply Qle_shift_div_l; [exact Hd | lra].
  - apply Qle_shift_div_r; [exact Hd | lra].
Qed.

Lemma norm_yield_in_unit_interval_witness :
  0 <= ((6 # 100) - (45 # 1000)) / (((6 # 100) - (45 # 1000)) + (1 # 1000000000)) <= 1.
Proof.
  apply (norm_yield_in_unit_interval
           (candidates BOND_UNIVERSE "safe") (45 # 1000) (6 # 100)
           (mkBond "B_SAFE_2" "InvGrade Corp 3Y" "AA" (6 # 100) 3 (Some (9 # 10)))).
  - reflexivity.
  - reflexivity.
  - right. left. reflexivity.
Defined.

(** ** The trigger rules *)

Lemma triggers_cases (univ : list Bond) (a : Asset) :
  triggers univ a = Ok []
  \/ (exists i rs,
        asset_id a = Some i
        /\ triggers univ a = Ok [(i, get_float (market_value a), rs)]
        /\ ((type a = Some "stock" /\ rs = "stock_high")
            \/ (type a = Some "mutual_fund" /\ rs = "mf_lowcagr")
            \/ (type a = Some "bank_fd" /\ (rs = "fd_replace" \/ rs = "fd_suggest_ladder")))%string)
  \/ (asset_id a = None /\ triggers univ a = Raise KeyError).
Proof.
  unfold triggers, asset_id_item.
  destruct (type a) as [t|]; cbn [opt_str_eqb andb];
    [|cbn [bind app]; left; reflexivity].
  destruct (String.eqb t "stock") eqn:E1.
  - apply String.eqb_eq in E1. subst t.
    cbn [String.eqb Ascii.eqb Bool.eqb andb].
    destruct (opt_str_in (risk_label a) _); cbn [bind app].
    + destruct (asset_id a) as [i|]; cbn [bind app].
      * right. left. exists i. eexists. split; [reflexivity|].
        split; [reflexivity|]. left. split; reflexivity.
      * right. right. split; reflexivity.
    + left. reflexivity.
  - cbn [andb bind app].
    destruct (String.eqb t "mutual_fund") eqn:E2.
    + apply String.eqb_eq in E2. subst t.
      cbn [String.eqb Ascii.eqb Bool.eqb andb].
      destruct (Qlt_bool _ _); cbn [bind app].
      * destruct (asset_id a) as [i|]; cbn [bind app].
        -- right. left. exists i. eexists. split; [reflexivity|].
           split; [reflexivity|]. right. left. split; reflexivity.
        -- right. right. split; reflexivity.
      * left. reflexivity.
    + cbn [andb bind app].
      destruct (String.eqb t "bank_fd") eqn:E3; [|cbn [bind app]; left; reflexivity].
      apply String.eqb_eq in E3. subst t.
      destruct (filter _ (filter _ univ));
        (destruct (asset_id a) as [i|]; cbn [bind app];
         [right; left; exists i; eexists; split; [reflexivity|];
          split; [reflexivity|]; right; right; split; [reflexivity|]; tauto
         | right; right; split; reflexivity]).
Qed.



(** ** One recommendation per triggered asset *)

Lemma triggered_cases (univ : list Bond) (a : Asset) :
  (triggered univ a = false /\ (triggers univ a = Ok [] \/ triggers univ a = Raise KeyError))
  \/ (triggered univ a = true
      /\ exists i rs,
          asset_id a = Some i
          /\ triggers univ a = Ok [(i, get_float (market_value a), rs)]
          /\ In rs ["stock_high"; "mf_lowcagr"; "fd_replace"; "fd_suggest_ladder"]%string).
Proof.
  unfold triggered.
  destruct (triggers_cases univ a) as [H | [[i [rs [Hi [H Hr]]]] | [Hi H]]]; rewrite H.
  - left. split; [reflexivity | left; reflexivity].
  - right. split; [reflexivity|]. exists i, rs. split; [exact Hi|].
    split; [reflexivity|]. simpl.
    destruct Hr as [[_ ->] | [[_ ->] | [_ [-> | ->]]]]; tauto.
  - left. split; [reflexivity | right; reflexivity].
Qed.

Lemma to_replace_entries (univ : list Bond) (assets : list Asset)
      (entries : list (string * Q * string)) :
  to_replace univ assets = Ok entries ->
  map (fun e => Some (fst (fst e))) entries = map asset_id (filter (triggered univ) assets)
  /\ map (fun e => snd (fst e)) entries
     = map (fun a => get_float (market_value a)) (filter (triggered univ) assets)
  /\ Forall (fun e => In (snd e)
               ["stock_high"; "mf_lowcagr"; "fd_replace"; "fd_suggest_ladder"]%string) entries.
Proof.
  revert entries. induction assets as [|a l IH]; intros entries H.
  - injection H as <-. repeat split; constructor.
  - cbn [to_replace] in H. bind_inv H. bind_inv H. injection H as <-.
    destruct (IH v0 E0) as [I1 [I2 I3]]. cbn [filter].
    destruct (triggered_cases univ a) as [[-> [T | T]] | [-> [i [rs [Hi [T Hr]]]]]];
      rewrite T in E; try discriminate; injection E as <-; cbn [app map fst snd].
    + repeat split; assumption.
    + rewrite I1, I2, Hi. repeat split. constructor; assumption.
Qed.

Lemma find_asset_some (assets : list Asset) (i : string) :
  (exists a, In a assets /\ asset_id a = Some i) -> find_asset assets i <> Ok None.
Proof.
  intros [a [Ha Hi]] H. apply (find_asset_none assets i a H Ha Hi).
Qed.

Lemma entries_have_assets (univ : list Bond) (assets : list Asset)
      (entries : list (string * Q * string)) (e : string * Q * string) :
  to_replace univ assets = Ok entries -> In e entries ->
  exists a, In a assets /\ asset_id a = Some (fst (fst e)).
Proof.
  intros H He. destruct (to_replace_entries univ assets entries H) as [I1 _].
  assert (Hin : In (Some (fst (fst e))) (map (fun e => Some (fst (fst e))) entries))
    by (apply in_map_iff; exists e; split; [reflexivity | exact He]).
  rewrite I1 in Hin. apply in_map_iff in Hin. destruct Hin as [a [Ha Hf]].
  apply filter_In in Hf. exists a. split; [apply Hf | exact Ha].
Qed.

Lemma build_loop_exact (assets : list Asset) (univ : list Bond)
      (entries : list (string * Q * string)) (recs0 recs : list Recommendation) :
  (forall e, In e entries -> find_asset assets (fst (fst e)) <> Ok None) ->
  build_loop assets univ entries recs0 = Ok recs ->
  map (fun r => (rec_asset_id r, replace_value r, reason r)) recs
  = map (fun r => (rec_asset_id r, replace_value r, reason r)) recs0 ++ entries.
Proof.
  revert recs0. induction entries as [|e l IH]; intros recs0 Hf H.
  - cbn in H. injection H as <-. rewrite app_nil_r. reflexivity.
  - cbn [build_loop] in H. bind_inv H. destruct v as [r|].
    + rewrite (IH _ (fun e' He' => Hf e' (or_intror He')) H).
      rewrite map_app. cbn [map]. rewrite (build_one_some _ _ _ _ E).
      rewrite <- app_assoc. reflexivity.
    + exfalso. apply (Hf e (or_introl eq_refl)). apply (build_one_none _ _ _ E).
Qed.

(** X17: when the builder returns, there is exactly one recommendation per
    triggered asset, in portfolio order, carrying that asset's id and
    market value: no entry of [to_replace] is dropped. *)
Theorem one_recommendation_per_trigger
        (assets : list Asset) (univ : list Bond) (recs : list Recommendation) :
  build_recommendations assets univ = Ok recs ->
  to_replace univ assets
  = Ok (map (fun r => (rec_asset_id r, replace_value r, reason r)) recs)
  /\ map (fun r => Some (rec_asset_id r)) recs
     = map asset_id (filter (triggered univ) assets)
  /\ map replace_value recs
     = map (fun a => get_float (market_value a)) (filter (triggered univ) assets)
  /\ List.length recs = List.length (filter (triggered univ) assets).
Proof.
  intros H. unfold build_recommendations in H. bind_inv H.
  assert (Hm : map (fun r => (rec_asset_id r, replace_value r, reason r)) recs = v).
  { apply (build_loop_exact assets univ v [] recs); [|exact H].
    intros e He. apply find_asset_some. apply (entries_have_assets univ assets v e E He). }
  destruct (to_replace_entries univ assets v E) as [I1 [I2 _]].
  rewrite <- Hm in I1, I2. rewrite map_map in I1, I2. cbn [fst snd] in I1, I2.
  split; [rewrite Hm; exact E|]. split; [exact I1|]. split; [exact I2|].
  rewrite <- (length_map replace_value recs), <- (length_map (fun a => get_float (market_value a))).
  f_equal. exact I2.
Qed.

Lemma one_recommendation_per_trigger_witness :
  exists recs,
    build_recommendations demo_portfolio BOND_UNIVERSE = Ok recs
    /\ List.length recs = List.length (filter (triggered BOND_UNIVERSE) demo_portfolio).
Proof.
  eexists. split; [vm_compute; reflexivity|].
  apply (one_recommendation_per_trigger demo_portfolio BOND_UNIVERSE).
  vm_compute. reflexivity.
Defined.

(** ** Errors of the recommendation builder *)

Lemma to_replace_untriggered (univ : list Bond) (assets : list Asset) :
  (forall a, In a assets -> triggers univ a = Ok []) -> to_replace univ assets = Ok [].
Proof.
  induction assets as [|a l IH]; intros H; [reflexivity|].
  cbn [to_replace]. rewrite (H a (or_introl eq_refl)). cbn [bind].
  rewrite IH by (intros b Hb; apply H; right; exact Hb). reflexivity.
Qed.

Lemma to_replace_raises (univ : list Bond) (assets : list Asset) :
  (exists a, In a assets /\ triggers univ a = Raise KeyError) ->
  to_replace univ assets = Raise KeyError.
Proof.
  induction assets as [|a l IH]; intros [x [Hx Hr]]; [destruct Hx|].
  cbn [to_replace].
  destruct (triggers_cases univ a) as [H | [[i [rs [_ [H _]]]] | [_ H]]];
    rewrite H; cbn [bind]; [| |reflexivity];
    (destruct Hx as [<- | Hx]; [congruence|]);
    rewrite IH by (exists x; split; assumption); reflexivity.
Qed.

Lemma find_asset_present (assets : list Asset) (i : string) :
  (forall a, In a assets -> asset_id a <> None) ->
  (exists a, In a assets /\ asset_id a = Some i) ->
  exists a, find_asset assets i = Ok (Some a).
Proof.
  induction assets as [|x l IH]; intros Hall [a [Ha Hi]]; [destruct Ha|].
  cbn [find_asset]. unfold asset_id_item.
  destruct (asset_id x) as [xi|] eqn:Ex;
    [|exfalso; apply (Hall x (or_introl eq_refl)); exact Ex].
  cbn [bind]. destruct (String.eqb xi i) eqn:Eq; [exists x; reflexivity|].
  apply IH; [intros b Hb; apply Hall; right; exact Hb|].
  destruct Ha as [<- | Ha].
  - rewrite Ex in Hi. injection Hi as ->. rewrite String.eqb_refl in Eq. discriminate.
  - exists a. split; assumption.
Qed.

Lemma build_one_empty_universe (assets : list Asset) (i : string) (v : Q) (rs : string) :
  In rs ["stock_high"; "mf_lowcagr"; "fd_replace"; "fd_suggest_ladder"]%string ->
  (exists a, find_asset assets i = Ok (Some a)) ->
  build_one assets [] (i, v, rs) = Raise ValueError.
Proof.
  intros Hr [a Ha]. unfold build_one. rewrite Ha. cbn [bind].
  simpl in Hr. destruct Hr as [<- | [<- | [<- | [<- | []]]]]; reflexivity.
Qed.

(** X18: the builder returns the empty list when no asset is triggered,
    even on an empty universe; it raises [KeyError] when a bank deposit has
    no id; on an empty universe it raises [ValueError] as soon as some asset
    is triggered and all assets carry an id. *)
Theorem build_recommendations_errors (assets : list Asset) :
  (forall univ,
      (forall a, In a assets -> triggers univ a = Ok []) ->
      build_recommendations assets univ = Ok [])
  /\ (forall univ,
         (exists a, In a assets /\ type a = Some "bank_fd"%string /\ asset_id a = None) ->
         build_recommendations assets univ = Raise KeyError)
  /\ ((forall a, In a assets -> asset_id a <> None) ->
      (exists a, In a assets /\ triggered [] a = true) ->
      build_recommendations assets [] = Raise ValueError).
Proof.
  split; [|split].
  - intros univ H. unfold build_recommendations.
    rewrite (to_replace_untriggered univ assets H). reflexivity.
  - intros univ [a [Ha [Ht Hn]]]. unfold build_recommendations.
    rewrite to_replace_raises; [reflexivity|]. exists a. split; [exact Ha|].
    destruct (triggers_cases univ a) as [T | [[i [rs [Hi _]]] | [_ T]]];
      [|congruence | exact T].
    destruct (triggers_bank_fd_id univ a [] Ht T) as [i Hi]. congruence.
  - intros Hall [a [Ha Ht]]. unfold build_recommendations.
    destruct (to_replace [] assets) as [entries|x] eqn:E.
    + cbn [bind]. destruct (to_replace_entries [] assets entries E) as [I1 [_ I3]].
      destruct entries as [|e rest].
      * exfalso. cbn [map] in I1.
        assert (Hin : In a (filter (triggered []) assets))
          by (apply filter_In; split; assumption).
        destruct (filter (triggered []) assets); [destruct Hin | discriminate].
      * cbn [build_loop]. destruct e as [[i v] rs].
        rewrite build_one_empty_universe; [reflexivity | |].
        -- apply Forall_inv in I3. exact I3.
        -- apply find_asset_present; [exact Hall|].
           apply (entries_have_assets [] assets _ (i, v, rs) E). left. reflexivity.
    + exfalso.
      assert (Hno : forall l, (forall b, In b l -> asset_id b <> None) ->
                forall y, to_replace [] l <> Raise y).
      { clear. induction l as [|b l IH]; intros Hall y H; [discriminate|].
        cbn [to_replace] in H.
        destruct (triggers_cases [] b) as [T | [[i [rs [_ [T _]]]] | [Hn _]]];
          [| |exfalso; apply (Hall b (or_introl eq_refl)); exact Hn];
          rewrite T in H; cbn [bind] in H;
          specialize (IH (fun b' Hb' => Hall b' (or_intror Hb')));
          (destruct (to_replace [] l) as [rs'|e']; [discriminate | apply (IH e' eq_refl)]). }
      apply (Hno assets Hall x E).
Qed.

Lemma build_recommendations_errors_witness :
  build_recommendations
    [mkAsset (Some "S1"%string) (Some "stock"%string) None (Some "high"%string)
             (Some 100) None None] [] = Raise ValueError.
Proof.
  apply (proj2 (proj2 (build_recommendations_errors _))).
  - intros a [<- | []]. discriminate.
  - eexists. split; [left; reflexivity | reflexivity].
Defined.

Lemma find_absent {A : Type} (f : A -> bool) (l : list A) :
  (forall x, In x l -> f x = false) -> find f l = None.
Proof.
  induction l as [|x l IH]; intros H; [reflexivity|].
  cbn [find]. rewrite (H x (or_introl eq_refl)).
  apply IH. intros y Hy. apply H. right. exact Hy.
Qed.

(** X19: the ladder needs the bond [B_SHORT_SAFE]: on a non-empty universe
    without it, a bank deposit that no AAA or AA bond out-yields makes the
    builder raise [TypeError]. *)
Theorem ladder_needs_short_bond (univ : list Bond) (a : Asset) (i : string) :
  univ <> [] ->
  (forall b, In b univ -> bond_id b <> "B_SHORT_SAFE"%string) ->
  type a = Some "bank_fd"%string -> asset_id a = Some i ->
  ~ (exists b, In b univ /\ (credit b = "AAA"%string \/ credit b = "AA"%string)
               /\ get_float (fd_rate a) <= yield b) ->
  build_recommendations [a] univ = Raise TypeError.
Proof.
  intros Hne Hshort Ht Hi Hno.
  destruct (triggers_bank_fd univ a i Ht Hi) as [rs [Hrs [_ H2]]].
  apply H2 in Hno. subst rs.
  unfold build_recommendations. cbn [to_replace bind]. rewrite Hrs.
  cbn [bind app build_loop build_one find_asset].
  unfold asset_id_item. rewrite Hi. cbn [bind]. rewrite String.eqb_refl.
  cbn [String.eqb Ascii.eqb Bool.eqb].
  destruct (select_in_candidates univ "safe" false 3 Hne) as [b [-> _]]. cbn [bind].
  rewrite find_absent; [reflexivity|].
  intros b' Hb'. apply String.eqb_neq. apply Hshort. exact Hb'.
Qed.

Lemma ladder_needs_short_bond_witness :
  build_recommendations
    [mkAsset (Some "FD_1"%string) (Some "bank_fd"%string) None None (Some 20000) None
             (Some (7 # 100))]
    [mkBond "G1" "Gilt 3Y" "AAA" (55 # 1000) 3 None] = Raise TypeError.
Proof.
  apply (ladder_needs_short_bond _ _ "FD_1"%string).
  - discriminate.
  - intros b [<- | []]. discriminate.
  - reflexivity.
  - reflexivity.
  - intros [b [[<- | []] [_ Hy]]]. vm_compute in Hy. apply Hy. reflexivity.
Defined.

(** ** The rebalanced portfolio *)

Lemma keep_unreplaced_filter (ids : list string) (assets kept : list Asset) :
  keep_unreplaced ids assets = Ok kept ->
  kept = filter (fun a => negb (replaced_in ids a)) assets
  /\ forall a, In a assets -> asset_id a <> None.
Proof.
  revert kept. induction assets as [|a l IH]; intros kept H.
  - injection H as <-. split; [reflexivity | intros a []].
  - cbn [keep_unreplaced] in H. bind_inv H. bind_inv H. injection H as <-.
    destruct (IH v0 E0) as [-> Hall].
    unfold asset_id_item in E. destruct (asset_id a) as [i|] eqn:Ea; [|discriminate].
    injection E as <-. split.
    + assert (R : replaced_in ids a = str_in i ids)
        by (unfold replaced_in; rewrite Ea; reflexivity).
      cbn [filter]. rewrite R. destruct (str_in i ids); reflexivity.
    + intros b [<- | Hb]; [congruence | apply Hall; exact Hb].
Qed.

Lemma str_in_In (x : string) (xs : list string) : str_in x xs = true <-> In x xs.
Proof.
  unfold str_in. rewrite existsb_exists. split.
  - intros [y [Hy E]]. apply String.eqb_eq in E. subst y. exact Hy.
  - intros H. exists x. split; [exact H | apply String.eqb_refl].
Qed.

Lemma NoDup_map_injective {A B : Type} (f : A -> B) (l : list A) (a b : A) :
  NoDup (map f l) -> In a l -> In b l -> f a = f b -> a = b.
Proof.
  induction l as [|x l IH]; intros Hnd Ha Hb Hf; [destruct Ha|].
  cbn [map] in Hnd. inversion Hnd as [|? ? Hx Hnd']. subst.
  destruct Ha as [<- | Ha], Hb as [<- | Hb].
  - reflexivity.
  - exfalso. apply Hx. rewrite Hf. apply in_map. exact Hb.
  - exfalso. apply Hx. rewrite <- Hf. apply in_map. exact Ha.
  - apply IH; assumption.
Qed.

Lemma length_filter_split {A : Type} (p : A -> bool) (l : list A) :
  List.length l
  = (List.length (filter p l) + List.length (filter (fun a => negb (p a)) l))%nat.
Proof.
  induction l as [|a l IH]; simpl; [reflexivity|].
  destruct (p a); simpl; lia.
Qed.

Lemma recommendations_of_triggered (assets : list Asset) (univ : list Bond)
      (recs : list Recommendation) :
  build_recommendations assets univ = Ok recs ->
  map (fun r => Some (rec_asset_id r)) recs = map asset_id (filter (triggered univ) assets)
  /\ map replace_value recs
     = map (fun a => get_float (market_value a)) (filter (triggered univ) assets).
Proof.
  intros H. unfold build_recommendations in H. bind_inv H.
  assert (Hm : map (fun r => (rec_asset_id r, replace_value r, reason r)) recs = v).
  { apply (build_loop_exact assets univ v [] recs); [|exact H].
    intros e He. apply find_asset_some. apply (entries_have_assets univ assets v e E He). }
  destruct (to_replace_entries univ assets v E) as [I1 [I2 _]].
  rewrite <- Hm in I1, I2. rewrite map_map in I1, I2. cbn [fst snd] in I1, I2.
  split; assumption.
Qed.

Lemma replaced_iff_triggered (assets : list Asset) (univ : list Bond)
      (recs : list Recommendation) (a : Asset) :
  NoDup (map asset_id assets) ->
  (forall x, In x assets -> asset_id x <> None) ->
  map (fun r => Some (rec_asset_id r)) recs = map asset_id (filter (triggered univ) assets) ->
  In a assets ->
  replaced_in (map rec_asset_id recs) a = triggered univ a.
Proof.
  intros Hnd Hall Hids Ha.
  destruct (asset_id a) as [i|] eqn:Ei; [|exfalso; apply (Hall a Ha); exact Ei].
  unfold replaced_in. rewrite Ei.
  assert (Hiff : In i (map rec_asset_id recs) <-> triggered univ a = true).
  { split.
    - intros Hin.
      assert (Hs : In (Some i) (map (fun r => Some (rec_asset_id r)) recs)).
      { apply in_map_iff in Hin. destruct Hin as [r [<- Hr]].
        apply in_map_iff. exists r. split; [reflexivity | exact Hr]. }
      rewrite Hids in Hs. apply in_map_iff in Hs. destruct Hs as [a' [Ha' Hf]].
      apply filter_In in Hf. destruct Hf as [Hin' Ht].
      assert (a' = a) by (apply (NoDup_map_injective asset_id assets); congruence).
      subst a'. exact Ht.
    - intros Ht.
      assert (Hs : In (Some i) (map asset_id (filter (triggered univ) assets))).
      { rewrite <- Ei. apply in_map. apply filter_In. split; assumption. }
      rewrite <- Hids in Hs. apply in_map_iff in Hs. destruct Hs as [r [Hr Hin]].
      injection Hr as <-. apply in_map. exact Hin. }
  destruct (triggered univ a).
  - apply str_in_In, Hiff. reflexivity.
  - destruct (str_in i (map rec_asset_id recs)) eqn:E; [|reflexivity].
    apply str_in_In, Hiff in E. discriminate.
Qed.

Lemma rebalance_partition (assets : list Asset) (univ : list Bond)
      (recs : list Recommendation) (post : list Asset) :
  NoDup (map asset_id assets) ->
  build_recommendations assets univ = Ok recs ->
  post_rebalance assets recs = Ok post ->
  post = filter (fun a => negb (triggered univ a)) assets ++ map bond_asset recs
  /\ map replace_value recs
     = map (fun a => get_float (market_value a)) (filter (triggered univ) assets).
Proof.
  intros Hnd Hb Hp.
  destruct (recommendations_of_triggered assets univ recs Hb) as [I1 I2].
  unfold post_rebalance in Hp. bind_inv Hp. injection Hp as <-.
  destruct (keep_unreplaced_filter _ _ _ E) as [-> Hall].
  split; [|exact I2]. f_equal.
  apply filter_ext_in. intros a Ha.
  rewrite (replaced_iff_triggered assets univ recs a Hnd Hall I1 Ha). reflexivity.
Qed.

Lemma filter_split_permutation {A : Type} (p : A -> bool) (l : list A) :
  Permutation (filter (fun a => negb (p a)) l ++ filter p l) l.
Proof.
  induction l as [|a l IH]; cbn [filter]; [constructor|].
  destruct (p a); cbn [negb].
  - apply Permutation_sym, Permutation_cons_app, Permutation_sym. exact IH.
  - cbn [app]. constructor. exact IH.
Qed.

Lemma partition_values (assets : list Asset) (univ : list Bond) (recs : list Recommendation) :
  map replace_value recs
  = map (fun a => get_float (market_value a)) (filter (triggered univ) assets) ->
  Permutation
    (map (fun a => get_float (market_value a))
         (filter (fun a => negb (triggered univ a)) assets ++ map bond_asset recs))
    (map (fun a => get_float (market_value a)) assets).
Proof.
  intros I2. rewrite map_app, map_map. cbn [bond_asset market_value get_float].
  change (map (fun x => replace_value x) recs) with (map replace_value recs).
  rewrite I2, <- map_app. apply Permutation_map. apply filter_split_permutation.
Qed.

(** X20: rebalancing moves market values without changing them: with
    distinct asset ids the rebalanced portfolio is the untriggered assets
    followed by one bond per recommendation, it has as many assets as
    before, its market values are those of the portfolio in another order,
    and every asset that was added has the raw risk score 0.5. *)
Theorem rebalance_permutes_values (assets : list Asset) (univ : list Bond)
        (recs : list Recommendation) (post : list Asset) :
  NoDup (map asset_id assets) ->
  build_recommendations assets univ = Ok recs ->
  post_rebalance assets recs = Ok post ->
  post = filter (fun a => negb (triggered univ a)) assets ++ map bond_asset recs
  /\ List.length post = List.length assets
  /\ Permutation (map (fun a => get_float (market_value a)) post)
                 (map (fun a => get_float (market_value a)) assets)
  /\ forall a, In a post ->
       In a assets \/ get_asset_risk_score a = 5 # 10.
Proof.
  intros Hnd Hb Hp.
  destruct (rebalance_partition assets univ recs post Hnd Hb Hp) as [-> I2].
  split; [reflexivity|]. split; [|split].
  - rewrite length_app, length_map.
    rewrite <- (length_map replace_value recs), I2, length_map.
    rewrite (length_filter_split (triggered univ) assets). lia.
  - apply partition_values. exact I2.
  - intros a Ha. apply in_app_or in Ha. destruct Ha as [Ha | Ha].
    + left. apply filter_In in Ha. apply Ha.
    + right. apply in_map_iff in Ha. destruct Ha as [r [<- _]]. reflexivity.
Qed.

Lemma rebalance_permutes_values_witness :
  exists recs post,
    build_recommendations demo_portfolio BOND_UNIVERSE = Ok recs
    /\ post_rebalance demo_portfolio recs = Ok post
    /\ Permutation (map (fun a => get_float (market_value a)) post)
                   (map (fun a => get_float (market_value a)) demo_portfolio).
Proof.
  eexists. eexists. split; [vm_compute; reflexivity|].
  split; [vm_compute; reflexivity|].
  refine (proj1 (proj2 (proj2
            (rebalance_permutes_values demo_portfolio BOND_UNIVERSE _ _ _ _ _)))).
  - repeat constructor; simpl; intuition discriminate.
  - vm_compute. reflexivity.
  - vm_compute. reflexivity.
Defined.

(** X21: whenever the [recommend] handler returns and the asset ids of the
    portfolio it works on (the demo portfolio for a missing or empty list)
    are distinct, the breakdown after rebalancing has one entry per asset of
    the portfolio, its market values are those of the portfolio in another
    order, and the recommendations are those of [build_recommendations] on
    the fixed universe. *)
Theorem recommend_permutes_values
        (req_json : option (option (list Asset))) (resp : RecommendResponse) :
  NoDup (map asset_id (safe_get_portfolio_from_request req_json)) ->
  recommend req_json = Ok resp ->
  Permutation (map bd_market_value (post_breakdown resp))
              (map (fun a => get_float (market_value a))
                   (safe_get_portfolio_from_request req_json))
  /\ List.length (post_breakdown resp)
     = List.length (safe_get_portfolio_from_request req_json)
  /\ build_recommendations (safe_get_portfolio_from_request req_json) BOND_UNIVERSE
     = Ok (recommendations resp).
Proof.
  intros Hnd H. unfold recommend in H.
  set (assets := safe_get_portfolio_from_request req_json) in *.
  bind_inv H. destruct v as [[pre_score pre_bd] tv].
  bind_inv H. bind_inv H. bind_inv H. destruct v1 as [[post_score post_bd] tv'].
  injection H as <-. cbn [post_total_value pre_total_value post_breakdown recommendations].
  destruct (rebalance_partition assets BOND_UNIVERSE v v0 Hnd E0 E1) as [Hpost I2].
  unfold compute_portfolio_risk in E2.
  rewrite risk_loop_ok in E2 by apply total_value_nonzero. cbn [bind] in E2.
  injection E2 as _ <- _. cbn [fst app].
  split; [|split; [|exact E0]].
  - rewrite map_map. cbn [breakdown_entry bd_market_value].
    rewrite Hpost. apply partition_values. exact I2.
  - rewrite length_map, Hpost, length_app, length_map.
    rewrite <- (length_map replace_value v), I2, length_map.
    rewrite (length_filter_split (triggered BOND_UNIVERSE) assets). lia.
Qed.

Lemma recommend_permutes_values_witness :
  exists resp,
    recommend None = Ok resp
    /\ List.length (post_breakdown resp) = List.length demo_portfolio.
Proof.
  eexists. split; [vm_compute; reflexivity|].
  refine (proj1 (proj2 (recommend_permutes_values None _ _ _))).
  - repeat constructor; simpl; intuition discriminate.
  - vm_compute. reflexivity.
Defined.

(** ** The score endpoint *)



End RecommendExtras.
